(** * anyio: the top-level API module ([anyio/__init__.py])

    A shallow embedding of the functions of [anyio/__init__.py] that carry
    behaviour of their own: the Happy Eyeballs race of [connect_tcp], the
    socket constructors, [run], the timeout helpers and [run_process].
    The backend modules ([anyio._backends._*]), [sniffio] and the operating
    system are the environment: their answers are passed in as data. *)

From Stdlib Require Import QArith Lqa Ascii.
From stdpp Require Import base tactics option list strings gmap.

Open Scope string_scope.

(** ** Python exceptions *)

Module Exc.

(** The [command] of a subprocess: a string for the shell, or the
    executable and its arguments. *)
Inductive command : Type :=
  | Shell (line : string)
  | Argv (words : list string).

Definition bytes : Type := list Byte.byte.

(** The exception objects the module raises, catches or passes on.  An
    [OSError] stands for any instance of the class or of a subclass
    ([ConnectionRefusedError] and the like); [RaiseFrom e c] is [e] with
    [__cause__] set to [c], the result of [raise e from c]. *)
#[warnings="-register-all"]
Inductive exn : Type :=
  | OSError (msg : string)
  | RuntimeError (msg : string)
  | LookupError (msg : string)
  | ValueError (msg : string)
  | ImportError (msg : string)
  | TimeoutError
  | CancelledError
  | KeyboardInterrupt
  | CalledProcessError (returncode : Z) (cmd : command)
                       (output stderr : option bytes)
  | ExceptionGroup (excs : list exn)
  | RaiseFrom (e cause : exn).

(** [isinstance(exc, OSError)], what [except OSError] tests; the builtin
    [TimeoutError] is a subclass of [OSError]. *)
Fixpoint is_OSError (e : exn) : bool :=
  match e with
  | OSError _ | TimeoutError => true
  | RaiseFrom e' _ => is_OSError e'
  | _ => false
  end.

(** The exception without its [__cause__] chain. *)
Fixpoint exc_head (e : exn) : exn :=
  match e with
  | RaiseFrom e' _ => exc_head e'
  | _ => e
  end.

(** Python's [repr] of a [str] of ASCII characters: the string in single
    quotes, or in double quotes when it has a single quote and no double
    quote; the quote used and the backslash are written with a backslash
    before them, tab, newline and carriage return as [\t], [\n] and [\r],
    the other control characters as [\xhh]. *)
Definition squote : ascii := ascii_of_nat 39.
Definition dquote : ascii := ascii_of_nat 34.
Definition backslash : ascii := ascii_of_nat 92.

Definition hexdigit (n : nat) : ascii :=
  ascii_of_nat (if Nat.ltb n 10 then 48 + n else 87 + n).

Definition repr_char (quote c : ascii) : string :=
  let n := nat_of_ascii c in
  if Ascii.eqb c quote || Ascii.eqb c backslash then
    String backslash (String c EmptyString)
  else if Nat.eqb n 9 then String backslash "t"
  else if Nat.eqb n 10 then String backslash "n"
  else if Nat.eqb n 13 then String backslash "r"
  else if Nat.ltb n 32 || Nat.eqb n 127 then
    String backslash
      (String "x"%char
         (String (hexdigit (n / 16)) (String (hexdigit (n mod 16)) EmptyString)))
  else String c EmptyString.

Fixpoint has_char (c : ascii) (s : string) : bool :=
  match s with
  | EmptyString => false
  | String c' s' => Ascii.eqb c c' || has_char c s'
  end.

Fixpoint repr_body (quote : ascii) (s : string) : string :=
  match s with
  | EmptyString => EmptyString
  | String c s' => (repr_char quote c ++ repr_body quote s')%string
  end.

Definition repr_str (s : string) : string :=
  let quote :=
    if has_char squote s && negb (has_char dquote s) then dquote else squote in
  String quote (repr_body quote s ++ String quote EmptyString)%string.

End Exc.
Export Exc.

(** ** Computations with effects *)

Module Eff.

(** A computation over a world [W]: it changes the world, and returns a
    value or raises an exception. *)
Definition M (W A : Type) : Type := W -> (exn + A) * W.

Section Ops.
Context {W : Type}.

Definition ret {A} (x : A) : M W A := fun w => (inr x, w).
Definition raise {A} (e : exn) : M W A := fun w => (inl e, w).
Definition bind {A B} (m : M W A) (k : A -> M W B) : M W B :=
  fun w => match m w with
           | (inr x, w') => k x w'
           | (inl e, w') => (inl e, w')
           end.

(** [try: m] followed by [except BaseException: h; raise]. *)
Definition try_except_reraise {A} (m : M W A) (h : M W unit) : M W A :=
  fun w => match m w with
           | (inr x, w') => (inr x, w')
           | (inl e, w') =>
               match h w' with
               | (inr _, w'') => (inl e, w'')
               | (inl e', w'') => (inl e', w'')
               end
           end.

End Ops.

#[global] Instance M_ret {W} : MRet (M W) := @ret W.
#[global] Instance M_bind {W} : MBind (M W) := fun A B k m => bind m k.

Definition when {W} (b : bool) (m : M W unit) : M W unit :=
  if b then m else mret tt.

(** A computation that leaves a component of the world as it is, however
    it ends. *)
Definition keeps {W A B} (proj : W -> B) (m : M W A) : Prop :=
  forall w r w', m w = (r, w') -> proj w' = proj w.

End Eff.
Export Eff(M_ret, M_bind).
Import Eff(raise, try_except_reraise, when, keeps).

(** ** [connect_tcp]: the Happy Eyeballs race *)

Module ConnectTcp.

Definition AF_INET : Z := 2.
Definition AF_INET6 : Z := 10.

Definition sockaddr : Type := string * Z.

(** One entry of [socket.getaddrinfo]'s answer:
    [(family, type, proto, canonname, sockaddr)]. *)
Record addrinfo : Type := AddrInfo {
  ai_family : Z;
  ai_type : Z;
  ai_proto : Z;
  ai_canonname : string;
  ai_sockaddr : sockaddr
}.

(** What the backend's [asynclib.connect_tcp(raw_socket, sa)] returns: a
    stream object over the raw socket it was given.  A raw socket is named
    by the index of the attempt that created it. *)
Record TCPSocketStream : Type := Stream {
  stream_socket : nat;
  stream_peer : sockaddr
}.

Inductive socket_state : Type :=
  | NoSocket      (* [socket.socket] not called yet, or it raised *)
  | SockOpen
  | SockClosed.

(** Where the task of one [try_connect] call is. *)
Inductive task_state : Type :=
  | Spawned             (* [tg.spawn] done, body not entered *)
  | Connecting          (* inside the second [try], before its result *)
  | Returned            (* the coroutine returned *)
  | Raised (e : exn).   (* the coroutine ended with exception [e] *)

Record attempt : Type := Attempt {
  at_af : Z;
  at_sa : sockaddr;
  at_socket : socket_state;
  at_event : bool;              (* the attempt's own [event] is set *)
  at_task : task_state;
  at_spawned : Q;               (* clock value at [tg.spawn] *)
  at_done : option Q            (* clock value at [event.set()] *)
}.

(** The loop [for i, (af, *rest, sa) in enumerate(target_addrs)] in the
    body of the task group. *)
Inductive launcher_state : Type :=
  | Ready                          (* at the head of the loop *)
  | Waiting (i : nat) (deadline : Q)
      (* in [async with move_on_after(delay): await event.wait()],
         [event] being the one of attempt [i] *)
  | Aborted.                       (* the loop was left by cancellation *)

(** The variables shared by the closure [try_connect] and the body of
    [connect_tcp], with the clock of the event loop. *)
Record race : Type := Race {
  stream : option TCPSocketStream;     (* the [nonlocal stream] *)
  oserrors : list exn;
  cancel_called : bool;                (* [tg.cancel_scope] *)
  attempts : list attempt;             (* the spawned tasks, in spawn order *)
  pending : list addrinfo;             (* [target_addrs] not iterated yet *)
  launcher : launcher_state;
  happy_eyeballs_delay : Q;
  now : Q
}.

(** The parameter default [happy_eyeballs_delay: float = 0.25]. *)
Definition default_happy_eyeballs_delay : Q := 1 # 4.

(** The state when [async with create_task_group() as tg] is entered:
    [stream = None], [oserrors = []], nothing spawned. *)
Definition init (target_addrs : list addrinfo) (delay : Q) : race :=
  {| stream := None; oserrors := []; cancel_called := false;
     attempts := []; pending := target_addrs; launcher := Ready;
     happy_eyeballs_delay := delay; now := 0 |}.

(** How the guarded block of [try_connect] (socket options, [bind],
    [await asynclib.connect_tcp]) ends. *)
Inductive outcome : Type :=
  | Connected
  | Raise (e : exn).

(** What happens next; the scheduler and the network choose. *)
Inductive event : Type :=
  | Spawn
      (* the loop body: [create_event()], [await tg.spawn(try_connect, ..)],
         then enter [move_on_after] and wait *)
  | Start (i : nat) (err : option string)
      (* attempt [i] runs [socket.socket(af, SOCK_STREAM)]: it returns, or
         raises [OSError err] *)
  | Resolve (i : nat) (o : outcome)
      (* the guarded block of attempt [i] ends, its handlers run *)
  | Wake          (* [event.wait()] returns in the loop *)
  | Timeout       (* the deadline of [move_on_after] passes *)
  | Abort         (* the cancellation reaches the loop *)
  | Tick (dt : Q).  (* the clock advances *)

Definition set_attempt (i : nat) (a : attempt) (s : race) : race :=
  {| stream := stream s; oserrors := oserrors s;
     cancel_called := cancel_called s;
     attempts := <[i := a]> (attempts s); pending := pending s;
     launcher := launcher s;
     happy_eyeballs_delay := happy_eyeballs_delay s; now := now s |}.

Definition set_launcher (l : launcher_state) (s : race) : race :=
  {| stream := stream s; oserrors := oserrors s;
     cancel_called := cancel_called s;
     attempts := attempts s; pending := pending s; launcher := l;
     happy_eyeballs_delay := happy_eyeballs_delay s; now := now s |}.

(** [await event.set()] of an attempt, at the current clock value. *)
Definition conclude (t : task_state) (sock : socket_state) (a : attempt)
    (s : race) : attempt :=
  {| at_af := at_af a; at_sa := at_sa a; at_socket := sock;
     at_event := true; at_task := t;
     at_spawned := at_spawned a; at_done := Some (now s) |}.

(** One iteration of the loop up to the wait. *)
Definition spawn (s : race) : option race :=
  match launcher s, pending s with
  | Ready, c :: rest =>
      let a := {| at_af := ai_family c; at_sa := ai_sockaddr c;
                  at_socket := NoSocket; at_event := false;
                  at_task := Spawned;
                  at_spawned := now s; at_done := None |} in
      Some {| stream := stream s; oserrors := oserrors s;
              cancel_called := cancel_called s;
              attempts := attempts s ++ [a]; pending := rest;
              launcher := Waiting (length (attempts s))
                                  (now s + happy_eyeballs_delay s);
              happy_eyeballs_delay := happy_eyeballs_delay s;
              now := now s |}
  | _, _ => None
  end.

(** The first [try] of [try_connect]. *)
Definition start (i : nat) (err : option string) (s : race) : option race :=
  match attempts s !! i with
  | Some a =>
      match at_task a, err with
      | Spawned, Some msg =>
          (* except OSError as exc: oserrors.append(exc);
             await event.set(); return *)
          Some {| stream := stream s;
                  oserrors := oserrors s ++ [OSError msg];
                  cancel_called := cancel_called s;
                  attempts := <[i := conclude Returned NoSocket a s]> (attempts s);
                  pending := pending s; launcher := launcher s;
                  happy_eyeballs_delay := happy_eyeballs_delay s;
                  now := now s |}
      | Spawned, None =>
          Some (set_attempt i
                  {| at_af := at_af a; at_sa := at_sa a;
                     at_socket := SockOpen; at_event := at_event a;
                     at_task := Connecting;
                     at_spawned := at_spawned a; at_done := at_done a |} s)
      | _, _ => None
      end
  | None => None
  end.

Definition is_cancellation (e : exn) : bool :=
  match e with CancelledError => true | _ => false end.

(** The second [try] of [try_connect], from the end of its body on.
    Modelled from the spec: the task group of the backend (section 4.2):
    a child that ends with an error, a cancellation apart, makes the group
    cancel its scope. *)
Definition resolve (i : nat) (o : outcome) (s : race) : option race :=
  match attempts s !! i with
  | Some a =>
      match at_task a with
      | Connecting =>
          match o with
          | Connected =>
              (* result = await asynclib.connect_tcp(raw_socket, sa)
                 if stream is None:
                     stream = result
                     await tg.cancel_scope.cancel()
                 finally: await event.set() *)
              let result := {| stream_socket := i; stream_peer := at_sa a |} in
              let a' := conclude Returned (at_socket a) a s in
              match stream s with
              | None =>
                  Some {| stream := Some result; oserrors := oserrors s;
                          cancel_called := true;
                          attempts := <[i := a']> (attempts s);
                          pending := pending s; launcher := launcher s;
                          happy_eyeballs_delay := happy_eyeballs_delay s;
                          now := now s |}
              | Some _ => Some (set_attempt i a' s)
              end
          | Raise e =>
              if is_OSError e then
                (* except OSError as exc: oserrors.append(exc);
                   raw_socket.close()
                   finally: await event.set() *)
                Some {| stream := stream s; oserrors := oserrors s ++ [e];
                        cancel_called := cancel_called s;
                        attempts := <[i := conclude Returned SockClosed a s]> (attempts s);
                        pending := pending s; launcher := launcher s;
                        happy_eyeballs_delay := happy_eyeballs_delay s;
                        now := now s |}
              else
                (* except BaseException: raw_socket.close(); raise
                   finally: await event.set() *)
                Some {| stream := stream s; oserrors := oserrors s;
                        cancel_called :=
                          cancel_called s || negb (is_cancellation e);
                        attempts := <[i := conclude (Raised e) SockClosed a s]> (attempts s);
                        pending := pending s; launcher := launcher s;
                        happy_eyeballs_delay := happy_eyeballs_delay s;
                        now := now s |}
          end
      | _ => None
      end
  | None => None
  end.

Definition event_is_set (i : nat) (s : race) : bool :=
  match attempts s !! i with
  | Some a => at_event a
  | None => false
  end.

(** Modelled from the spec: [Event.wait] of the backend, which is not part
    of this module (section 4.4): the wait returns once the event is set. *)
Definition wake (s : race) : option race :=
  match launcher s with
  | Waiting i _ => if event_is_set i s then Some (set_launcher Ready s) else None
  | _ => None
  end.

(** Modelled from the spec: the backend's [move_on_after] (sections 4.1
    and 5, a timeout is a deadline on the scope): the block
    [async with move_on_after(happy_eyeballs_delay)] is left when its
    deadline has come. *)
Definition timeout (s : race) : option race :=
  match launcher s with
  | Waiting _ d => if Qle_bool d (now s) then Some (set_launcher Ready s) else None
  | _ => None
  end.

(** Modelled from the spec: the backend's cancel scope (section 4.1).
    The loop runs inside [tg.cancel_scope]; once the scope is cancelled,
    by the winner's [cancel()] or by the group after a child failed, the
    loop is cancelled at a suspension point. *)
Definition abort (s : race) : option race :=
  match launcher s with
  | Aborted => None
  | _ => if cancel_called s then Some (set_launcher Aborted s) else None
  end.

(** Modelled from the spec: the clock of the event loop (section 5, the
    suspension points are the waits).  It advances only while nothing is
    runnable in the loop: not past the deadline of a wait, not over a wait
    whose event is set, not over a loop iteration that is due. *)
Definition may_pass (dt : Q) (s : race) : bool :=
  match launcher s with
  | Ready => match pending s with [] => true | _ :: _ => false end
  | Waiting i d => negb (event_is_set i s) && Qle_bool (now s + dt) d
  | Aborted => true
  end.

Definition tick (dt : Q) (s : race) : option race :=
  if Qle_bool 0 dt && may_pass dt s then
    Some {| stream := stream s; oserrors := oserrors s;
            cancel_called := cancel_called s;
            attempts := attempts s; pending := pending s;
            launcher := launcher s;
            happy_eyeballs_delay := happy_eyeballs_delay s;
            now := now s + dt |}
  else None.

Definition step (s : race) (ev : event) : option race :=
  match ev with
  | Spawn => spawn s
  | Start i err => start i err s
  | Resolve i o => resolve i o s
  | Wake => wake s
  | Timeout => timeout s
  | Abort => abort s
  | Tick dt => tick dt s
  end.

Fixpoint run (s : race) (evs : list event) : option race :=
  match evs with
  | [] => Some s
  | ev :: evs' =>
      match step s ev with
      | Some s' => run s' evs'
      | None => None
      end
  end.

(** *** Leaving the task group and the end of [connect_tcp] *)

Definition concluded (a : attempt) : bool :=
  match at_task a with
  | Returned | Raised _ => true
  | Spawned | Connecting => false
  end.

(** The body of the [async with] has ended and every child has
    finished. *)
Definition joined (s : race) : bool :=
  match launcher s with
  | Ready => match pending s with [] => true | _ :: _ => false end
  | Waiting _ _ => false
  | Aborted => true
  end && forallb concluded (attempts s).

Definition child_failures (s : race) : list exn :=
  omap (fun a => match at_task a with Raised e => Some e | _ => None end)
       (attempts s).

(** Modelled from the spec: the exit of the backend's task group (section
    4.2), which is not part of this module.  The group waits for every
    child; the cancellation of children by the group's own cancelled scope
    is no failure; one failure is raised as it is, several as one
    aggregate. *)
Definition task_group_exit (s : race) : option (option exn) :=
  if joined s then
    let cancelled := filter (fun e => is_cancellation e = true) (child_failures s) in
    let errors := filter (fun e => is_cancellation e = false) (child_failures s) in
    match errors with
    | [] =>
        match cancelled with
        | [] => Some None
        | _ :: _ => if cancel_called s then Some None else Some (Some CancelledError)
        end
    | [e] => Some (Some e)
    | _ => Some (Some (ExceptionGroup errors))
    end
  else None.

(** The statements after the [async with]:
      if stream is None:
          cause = oserrors[0] if len(oserrors) == 1
                  else asynclib.ExceptionGroup(oserrors)
          raise OSError('All connection attempts failed') from cause
      return stream
    ([oserrors[0]] of a list of length one is its only element.) *)
Definition epilogue (stream : option TCPSocketStream) (oserrors : list exn)
    : exn + TCPSocketStream :=
  match stream with
  | None =>
      let cause :=
        match oserrors with
        | [e] => e
        | _ => ExceptionGroup oserrors
        end in
      inl (RaiseFrom (OSError "All connection attempts failed") cause)
  | Some st => inr st
  end.

(** What [connect_tcp] hands to its caller, once the group is left. *)
Definition connect_tcp_exit (s : race) : option (exn + TCPSocketStream) :=
  match task_group_exit s with
  | None => None
  | Some (Some e) => Some (inl e)
  | Some None => Some (epilogue (stream s) (oserrors s))
  end.

(** The candidates in the order their attempts were spawned. *)
Definition candidate (a : addrinfo) : Z * sockaddr := (ai_family a, ai_sockaddr a).
Definition spawned_candidates (s : race) : list (Z * sockaddr) :=
  map (fun a => (at_af a, at_sa a)) (attempts s).

(** The order the specification asks for: every IPv6 candidate before every
    IPv4 candidate, the relative order kept otherwise. *)
Definition is_ipv6 (c : Z * sockaddr) : bool := (fst c =? AF_INET6)%Z.
Definition spec_ipv6_first (cs : list (Z * sockaddr)) : list (Z * sockaddr) :=
  List.filter is_ipv6 cs ++ List.filter (fun c => negb (is_ipv6 c)) cs.


(** *** Sample runs and the invariant of the race *)

Local Open Scope Q_scope.

(** Sample candidates: one IPv6 and one IPv4 address of a host. *)
Definition c6 : addrinfo := AddrInfo AF_INET6 1 6 "" ("2001:db8::1", 80%Z).
Definition c4 : addrinfo := AddrInfo AF_INET 1 6 "" ("192.0.2.1", 80%Z).

(** Both attempts are under way: the second was spawned when the wait for
    the first timed out. *)
Definition both_connecting : list event :=
  [Spawn; Start 0 None; Tick (1 # 4); Timeout; Spawn; Start 1 None].

Definition state_both_connecting : race :=
  Eval vm_compute in
    default (init [] 0) (run (init [c6; c4] (1 # 4)) both_connecting).

(** The loop has an iteration to run, now or when its wait ends. *)
Definition loop_due (s : race) : Prop :=
  match launcher s with
  | Ready => pending s ≠ []
  | Waiting _ _ => True
  | Aborted => False
  end.

(** What every run from [init addrs delay] keeps true. *)
Record inv (addrs : list addrinfo) (delay : Q) (s : race) : Prop := {
  inv_delay : happy_eyeballs_delay s = delay;
  inv_order :
    (spawned_candidates s ++ map candidate (pending s))%list = map candidate addrs;
  inv_spawned : ∀ i a, attempts s !! i = Some a → at_spawned a <= now s;
  inv_event : ∀ i a, attempts s !! i = Some a →
    at_event a = concluded a
    ∧ (at_event a = false → at_done a = None)
    ∧ (at_event a = true → is_Some (at_done a));
  inv_gap : ∀ i a b,
    attempts s !! i = Some a → attempts s !! S i = Some b →
    at_spawned a <= at_spawned b
    ∧ at_spawned b <= at_spawned a + delay
    ∧ ∀ t, at_done a = Some t → at_spawned b <= t;
  inv_waiting : ∀ i d, launcher s = Waiting i d →
    S i = length (attempts s)
    ∧ ∃ a, attempts s !! i = Some a ∧ d = at_spawned a + delay;
  inv_due : loop_due s → ∀ a,
    attempts s !! pred (length (attempts s)) = Some a →
    now s <= at_spawned a + delay ∧ ∀ t, at_done a = Some t → now s <= t
}.

(** The first attempt is refused before its wait is over: the loop goes
    on to the second candidate at once. *)
Definition refused_then_next : list event :=
  [Spawn; Start 0 None; Tick (1 # 8);
   Resolve 0 (Raise (OSError "Connection refused")); Wake; Spawn; Start 1 None].

Definition state_refused_then_next : race :=
  Eval vm_compute in
    default (init [] 0) (run (init [c6; c4] (1 # 4)) refused_then_next).

(** The pace of the loop: an attempt is spawned when the wait for the one
    before ended, at its deadline or at the instant its event was set. *)
Record paced (delay : Q) (s : race) : Prop := {
  paced_done : ∀ i a t, attempts s !! i = Some a → at_done a = Some t →
    t <= now s;
  paced_gap : ∀ i a b,
    attempts s !! i = Some a → attempts s !! S i = Some b →
    at_spawned b == at_spawned a + delay
    ∨ ∃ t, at_done a = Some t ∧ at_spawned b == t;
  paced_ready : launcher s = Ready → pending s ≠ [] → ∀ a,
    attempts s !! pred (length (attempts s)) = Some a →
    now s == at_spawned a + delay ∨ ∃ t, at_done a = Some t ∧ now s == t
}.

(** A refused connection to the only candidate. *)
Definition refused_alone : list event :=
  [Spawn; Start 0 None; Resolve 0 (Raise (OSError "Connection refused")); Wake].

Definition state_refused_alone : race :=
  Eval vm_compute in
    default (init [] 0) (run (init [c4] (1 # 4)) refused_alone).

(** The race without candidates: nothing spawned, nothing to spawn. *)
Definition nothing_to_try (s : race) : Prop :=
  attempts s = [] ∧ pending s = [] ∧ launcher s = Ready
  ∧ stream s = None ∧ oserrors s = [] ∧ cancel_called s = false.

(** Both connects succeed, the first a moment before the second. *)
Definition both_succeed : list event :=
  both_connecting ++ [Resolve 0 Connected; Resolve 1 Connected; Abort].

End ConnectTcp.

(** ** The socket constructors outside the race *)

Module Sockets.
Import ConnectTcp.

(** Constants of the [socket] module (their Linux values; [IPPROTO_IPV6]
    is the module's own fallback 41). *)
Definition AF_UNIX : Z := 1.
Definition SOCK_STREAM : Z := 1.
Definition SOCK_DGRAM : Z := 2.
Definition SOL_SOCKET : Z := 1.
Definition SO_REUSEADDR : Z := 2.
Definition SO_EXCLUSIVEADDRUSE : Z := -5.
Definition IPPROTO_TCP : Z := 6.
Definition TCP_NODELAY : Z := 1.
Definition IPPROTO_IPV6 : Z := 41.
Definition IPV6_V6ONLY : Z := 26.

(** The calls into the [socket] module, the backend and [_utils]. *)
Inductive call : Type :=
  | c_socket (family type : Z)
  | c_setblocking (fd : nat) (flag : bool)
  | c_setsockopt (fd : nat) (level optname value : Z)
  | c_bind (fd : nat) (host : string) (port : Z)
  | c_bind_path (fd : nat) (path : string)
  | c_connect (fd : nat) (host : string) (port : Z)
  | c_listen (fd : nat)
  | c_chmod (path : string) (mode : Z)
  | c_close (fd : nat)
  | c_get_bind_address (interface : option string)
  | c_getaddrinfo (host : string) (port : option Z) (family : Z)
  | c_asynclib_connect_unix (fd : nat) (path : string)
  | c_asynclib_create_tcp_listener (fd : nat)
  | c_asynclib_create_unix_listener (fd : nat)
  | c_asynclib_create_udp_socket (fd : nat).

(** The environment: which calls raise, what the lookups answer, and the
    builtin [repr] on a host (a [str] or an address object). *)
Record env : Type := Env {
  raises : call -> option exn;
  bind_address : option string -> option string * Z * bool;
  addrinfo_of : string -> option Z -> Z -> list addrinfo;
  win32 : bool;                      (* [sys.platform == 'win32'] *)
  repr : string -> string
}.

(** The sockets of the process, by descriptor, and the calls made. *)
Record world : Type := World {
  sockets : list socket_state;
  calls : list call
}.

Definition empty_world : world := {| sockets := []; calls := [] |}.

Abbreviation M := (Eff.M world).


Section WithEnv.
Variable E : env.

Definition invoke (c : call) : M unit :=
  fun w =>
    let w' := {| sockets := sockets w; calls := calls w ++ [c] |} in
    match raises E c with
    | Some e => (inl e, w')
    | None => (inr tt, w')
    end.

(** [socket.socket(family, type)]: a new open descriptor. *)
Definition new_descriptor : M nat :=
  fun w => (inr (length (sockets w)),
            {| sockets := sockets w ++ [SockOpen]; calls := calls w |}).
Definition socket_socket (family type : Z) : M nat :=
  invoke (c_socket family type);; new_descriptor.

(** [raw_socket.close()] *)
Definition close (fd : nat) : M unit :=
  fun w => (inr tt, {| sockets := <[fd := SockClosed]> (sockets w);
                       calls := calls w ++ [c_close fd] |}).

Definition get_bind_address (interface : option string)
    : M (option string * Z * bool) :=
  invoke (c_get_bind_address interface);; mret (bind_address E interface).

Definition getaddrinfo (host : string) (port : option Z) (family : Z)
    : M (list addrinfo) :=
  invoke (c_getaddrinfo host port family);; mret (addrinfo_of E host port family).

(** Truth value of an [Optional[str]]; [s or ''] and [n or 0]. *)
Definition truthy_str (s : option string) : bool :=
  match s with
  | Some s' => negb (String.eqb s' "")
  | None => false
  end.
Definition str_or_empty (s : option string) : string :=
  if truthy_str s then default "" s else "".
Definition int_or_zero (n : option Z) : Z :=
  match n with
  | Some n' => if (n' =? 0)%Z then 0%Z else n'
  | None => 0%Z
  end.

Definition connect_unix (path : string) : M nat :=
  raw_socket ← socket_socket AF_UNIX SOCK_STREAM;
  invoke (c_setblocking raw_socket false);;
  try_except_reraise
    (invoke (c_asynclib_connect_unix raw_socket path);; mret raw_socket)
    (close raw_socket).

Definition create_tcp_server (port : Z) (interface : option string) : M nat :=
  '(interface, family, v6only) ← get_bind_address interface;
  raw_socket ← socket_socket family SOCK_STREAM;
  invoke (c_setblocking raw_socket false);;
  invoke (c_setsockopt raw_socket IPPROTO_TCP TCP_NODELAY 1);;
  (* Enable/disable dual stack operation as needed *)
  when (family =? AF_INET6)%Z
    (invoke (c_setsockopt raw_socket IPPROTO_IPV6 IPV6_V6ONLY (Z.b2z v6only)));;
  try_except_reraise
    ((if win32 E
      then invoke (c_setsockopt raw_socket SOL_SOCKET SO_EXCLUSIVEADDRUSE 1)
      else invoke (c_setsockopt raw_socket SOL_SOCKET SO_REUSEADDR 1));;
     invoke (c_bind raw_socket (str_or_empty interface) port);;
     invoke (c_listen raw_socket);;
     invoke (c_asynclib_create_tcp_listener raw_socket);;
     mret raw_socket)
    (close raw_socket).

Definition create_unix_server (path : string) (mode : option Z) : M nat :=
  raw_socket ← socket_socket AF_UNIX SOCK_STREAM;
  invoke (c_setblocking raw_socket false);;
  try_except_reraise
    (invoke (c_bind_path raw_socket path);;
     match mode with
     | Some m => invoke (c_chmod path m)
     | None => mret tt
     end;;
     invoke (c_listen raw_socket);;
     invoke (c_asynclib_create_unix_listener raw_socket);;
     mret raw_socket)
    (close raw_socket).

Definition create_udp_socket (interface : option string) (port : option Z)
    (target_host : option string) (target_port : option Z) : M nat :=
  '(interface, family) ←
    (if truthy_str interface
     then '(interface, family, _v6only) ← get_bind_address interface;
          mret (interface, family)
     else mret (None, 0%Z));
  '(family, target_host, target_port) ←
    (if truthy_str target_host
     then res ← getaddrinfo (default "" target_host) target_port family;
          match res with
          | r0 :: _ =>
              (* family, type_, proto, _cn, sa = res[0]
                 target_host, target_port = sa[:2] *)
              mret (ai_family r0, Some (fst (ai_sockaddr r0)),
                    Some (snd (ai_sockaddr r0)))
          | [] =>
              (* '{!r} cannot be resolved to an IP address'
                   .format(target_host) *)
              raise (ValueError (repr E (default "" target_host)
                                 ++ " cannot be resolved to an IP address"))
          end
     else mret (family, target_host, target_port));
  raw_socket ← socket_socket family SOCK_DGRAM;
  invoke (c_setblocking raw_socket false);;
  try_except_reraise
    (when (bool_decide (interface ≠ None) || bool_decide (port ≠ None))
       (invoke (c_bind raw_socket (str_or_empty interface) (int_or_zero port)));;
     match target_host, target_port with
     | Some h, Some p => invoke (c_connect raw_socket h p)
     | _, _ => mret tt
     end;;
     invoke (c_asynclib_create_udp_socket raw_socket);;
     mret raw_socket)
    (close raw_socket).

End WithEnv.

(** No descriptor is left open. *)
Definition no_open_socket (w : world) : bool :=
  forallb (fun st => match st with SockOpen => false | _ => true end) (sockets w).


(** *** A failing environment *)

#[global] Instance call_eq_dec : EqDecision call.
Proof. solve_decision. Defined.

(** The kernel refuses to switch [IPV6_V6ONLY] off. *)
Definition v6only_refused : env :=
  {| raises := λ c,
       if decide (c = c_setsockopt 0 IPPROTO_IPV6 IPV6_V6ONLY 0)
       then Some (OSError "Invalid argument") else None;
     bind_address := λ _, (None, AF_INET6, false);
     addrinfo_of := λ _ _ _, [];
     win32 := false;
     repr := repr_str |}.



End Sockets.

(** ** [run]: starting an event loop *)

Module EventLoop.

Definition BACKENDS : list string := ["asyncio"; "curio"; "trio"].

(** What [sniffio] knows in the calling thread: the name set for the
    thread, the context variable [current_async_library_cvar] (default
    [None]), and the library it would find running by inspection. *)
Record sniffio : Type := Sniffio {
  thread_local_name : option string;
  current_async_library_cvar : option string;
  sniffed : option string
}.

(** [sniffio.current_async_library()]; [None] stands for
    [AsyncLibraryNotFoundError]. *)
Definition current_async_library (st : sniffio) : option string :=
  match thread_local_name st with
  | Some name => Some name
  | None =>
      match current_async_library_cvar st with
      | Some name => Some name
      | None => sniffed st
      end
  end.

(** The token of [ContextVar.set]: it remembers the value replaced. *)
Record Token : Type := { old_value : option string }.

Definition set_cvar (v : option string) (st : sniffio) : sniffio :=
  {| thread_local_name := thread_local_name st;
     current_async_library_cvar := v;
     sniffed := sniffed st |}.

Record world : Type := World {
  sniff : sniffio;
  started : list string    (* the backends whose [run] was called *)
}.

Section Run.
Context {func args kwargs retval : Type}.

(** A backend module: its [run], which gives the value or the exception
    of the coroutine function and leaves the context variable with some
    value. *)
Record backend_module : Type := {
  backend_run : func -> list args -> list kwargs ->
                option string -> (exn + retval) * option string
}.

(** [import_module]: the module, or the exception of the import. *)
Variable import_module : string -> exn + backend_module.

Definition is_ImportError (e : exn) : bool :=
  match exc_head e with ImportError _ => true | _ => false end.

Definition run (f : func) (a : list args) (backend : string)
    (backend_options : option (list kwargs)) (w : world)
    : (exn + retval) * world :=
  match current_async_library (sniff w) with
  | Some asynclib_name =>
      (inl (RuntimeError ("Already running " ++ asynclib_name ++ " in this thread")), w)
  | None =>
      match import_module ("anyio._backends._" ++ backend) with
      | inl exc =>
          if is_ImportError exc
          then (inl (RaiseFrom (LookupError ("No such backend: " ++ backend)) exc), w)
          else (inl exc, w)
      | inr asynclib =>
          (* token = None
             if sniffio.current_async_library_cvar.get(None) is None:
                 token = sniffio.current_async_library_cvar.set(backend) *)
          let '(token, st1) :=
            match current_async_library_cvar (sniff w) with
            | None =>
                (Some {| old_value := current_async_library_cvar (sniff w) |},
                 set_cvar (Some backend) (sniff w))
            | Some _ => (None, sniff w)
            end in
          (* backend_options = backend_options or {} *)
          let backend_options := default [] backend_options in
          let '(result, v) :=
            backend_run asynclib f a backend_options
                        (current_async_library_cvar st1) in
          let st2 := set_cvar v st1 in
          (* finally: if token: cvar.reset(token) *)
          let st3 :=
            match token with
            | Some t => set_cvar (old_value t) st2
            | None => st2
            end in
          (result, {| sniff := st3; started := started w ++ [backend] |})
      end
  end.

End Run.

(** *** A sample installation: only the asyncio backend can be imported;
    its [run] gives 42 and leaves the context variable overwritten. *)
Definition only_asyncio (name : string)
    : exn + @backend_module unit unit unit Z :=
  if String.eqb name "anyio._backends._asyncio"
  then inr {| backend_run := fun _ _ _ _ => (inr 42%Z, Some "overwritten") |}
  else inl (ImportError ("No module named '" ++ name ++ "'")).

Definition idle_thread : world :=
  {| sniff := {| thread_local_name := None;
                 current_async_library_cvar := None;
                 sniffed := None |};
     started := [] |}.

Definition trio_thread : world :=
  {| sniff := {| thread_local_name := None;
                 current_async_library_cvar := Some "trio";
                 sniffed := None |};
     started := [] |}.

End EventLoop.

(** ** The backend of the calling thread *)

Module Worker.
Import EventLoop.

(** Exceptions of this part that [Exc.exn] does not list. *)
Inductive error : Type :=
  | Python (e : exn)
  | KeyError (key : string)
  | AttributeError (name : string)
  | AsyncLibraryNotFoundError.

(** A backend module object, known by its module name. *)
Record asynclib_module : Type := Module_ { module_name : string }.

(** The calling thread: what [sniffio] knows, the attribute
    [_local.current_async_module] of the thread-local object ([None]: the
    attribute is not set), and the dictionary [sys.modules]. *)
Record world : Type := World {
  sniff : sniffio;
  current_async_module : option asynclib_module;
  sys_modules : gmap string asynclib_module
}.

Definition result (A : Type) : Type := (error + A) * world.

Definition with_sniff (st : sniffio) (w : world) : world :=
  {| sniff := st; current_async_module := current_async_module w;
     sys_modules := sys_modules w |}.

Definition with_module (m : option asynclib_module) (w : world) : world :=
  {| sniff := sniff w; current_async_module := m;
     sys_modules := sys_modules w |}.

Definition with_modules (ms : gmap string asynclib_module) (w : world) : world :=
  {| sniff := sniff w; current_async_module := current_async_module w;
     sys_modules := ms |}.

Section WithImports.
(** What the import system does for a module name that is not loaded:
    the modules it loads on the way (the parent packages, the imports of
    the module), and the module, or the exception the import ends with. *)
Variable importable :
  string -> list (string * asynclib_module) * (exn + asynclib_module).

(** [importlib.import_module]: the loaded module, or the outcome of the
    import; what was loaded on the way stays in [sys.modules], and so does
    the module when the import succeeds. *)
Definition import_module (name : string) (w : world) : result asynclib_module :=
  match sys_modules w !! name with
  | Some m => (inr m, w)
  | None =>
      let '(loaded, found) := importable name in
      let modules := sys_modules w ∪ list_to_map loaded in
      match found with
      | inr m =>
          (inr m, {| sniff := sniff w;
                     current_async_module := current_async_module w;
                     sys_modules := <[name := m]> modules |})
      | inl e =>
          (inl (Python e), {| sniff := sniff w;
                              current_async_module := current_async_module w;
                              sys_modules := modules |})
      end
  end.

(** [_get_asynclib(asynclib_name=None)] *)
Definition _get_asynclib (asynclib_name : option string) (w : world)
    : result asynclib_module :=
  let name :=
    match asynclib_name with
    | None => current_async_library (sniff w)
    | Some n => Some n
    end in
  match name with
  | None => (inl AsyncLibraryNotFoundError, w)
  | Some asynclib_name =>
      let modulename := "anyio._backends._" ++ asynclib_name in
      match sys_modules w !! modulename with
      | Some m => (inr m, w)
      | None => import_module modulename w      (* except KeyError *)
      end
  end.

(** The functions of the form [return _get_asynclib().f(...)] ([sleep],
    [open_cancel_scope], [create_task_group], [create_lock],
    [create_event], ... ): [f] of the backend found. *)
Definition via_asynclib {A} (f : asynclib_module -> world -> result A) (w : world)
    : result A :=
  match _get_asynclib None w with
  | (inr asynclib, w') => f asynclib w'
  | (inl e, w') => (inl e, w')
  end.

(** [with claim_worker_thread(backend): body] *)
Definition claim_worker_thread {A} (backend : string)
    (body : world -> result A) (w : world) : result A :=
  match sys_modules w !! ("anyio._backends._" ++ backend) with
  | None => (inl (KeyError ("anyio._backends._" ++ backend)), w)
  | Some module =>
      (* _local.current_async_module = module
         token = sniffio.current_async_library_cvar.set(backend) *)
      let token := {| old_value := current_async_library_cvar (sniff w) |} in
      let w1 := with_sniff (set_cvar (Some backend) (sniff w))
                           (with_module (Some module) w) in
      let '(r, w2) := body w1 in
      (* finally: sniffio.current_async_library_cvar.reset(token)
                  del _local.current_async_module *)
      let w3 := with_sniff (set_cvar (old_value token) (sniff w2)) w2 in
      match current_async_module w3 with
      | Some _ => (r, with_module None w3)
      | None => (inl (AttributeError "current_async_module"), w3)
      end
  end.

Section Calls.
Context {func arg retval : Type}.
(** [asynclib.run_async_from_thread(func, *args)] of a backend: the
    coroutine runs in the thread of the event loop. *)
Variable asynclib_run_async_from_thread :
  asynclib_module -> func -> list arg -> exn + retval.

Definition run_async_from_thread (f : func) (args : list arg) (w : world)
    : result retval :=
  match current_async_module w with
  | None =>
      (inl (Python (RuntimeError
                      "This function can only be run from an AnyIO worker thread")),
       w)
  | Some asynclib =>
      (match asynclib_run_async_from_thread asynclib f args with
       | inl e => inl (Python e)
       | inr v => inr v
       end, w)
  end.
End Calls.

(** [with open_test_runner(backend, backend_options) as runner: body];
    [body] stands for the [with asynclib.TestRunner(...)] block around
    the [yield]. *)
Definition open_test_runner {A kwargs} (backend : string)
    (backend_options : option (list kwargs))
    (body : asynclib_module -> list kwargs -> world -> result A) (w : world)
    : result A :=
  match _get_asynclib (Some backend) w with
  | (inl e, w0) => (inl e, w0)
  | (inr asynclib, w0) =>
      let '(token, st1) :=
        match current_async_library_cvar (sniff w0) with
        | None =>
            (Some {| old_value := current_async_library_cvar (sniff w0) |},
             set_cvar (Some backend) (sniff w0))
        | Some _ => (None, sniff w0)
        end in
      let backend_options := default [] backend_options in
      let '(r, w2) := body asynclib backend_options (with_sniff st1 w0) in
      (* finally: if token: cvar.reset(token) *)
      match token with
      | Some t => (r, with_sniff (set_cvar (old_value t) (sniff w2)) w2)
      | None => (r, w2)
      end
  end.

End WithImports.

(** The world inside the block of [claim_worker_thread(backend)]. *)
Definition claimed (backend : string) (m : asynclib_module) (w : world) : world :=
  with_sniff (set_cvar (Some backend) (sniff w)) (with_module (Some m) w).

(** *** A sample thread: the trio and asyncio backends are loaded, curio
    could be imported, nothing runs. *)
Definition trio : asynclib_module := Module_ "anyio._backends._trio".
Definition asyncio : asynclib_module := Module_ "anyio._backends._asyncio".

Definition curio_importable (name : string)
    : list (string * asynclib_module) * (exn + asynclib_module) :=
  if String.eqb name "anyio._backends._curio"
  then ([("curio", Module_ "curio")], inr (Module_ name))
  else ([], inl (ImportError ("No module named '" ++ name ++ "'"))).

(** The curio library is not installed: the import of the backend module
    begins, and fails at its [import curio]. *)
Definition curio_missing (name : string)
    : list (string * asynclib_module) * (exn + asynclib_module) :=
  ([("anyio._backends", Module_ "anyio._backends")],
   inl (ImportError "No module named 'curio'")).

Definition idle_thread : world :=
  {| sniff := {| thread_local_name := None;
                 current_async_library_cvar := None;
                 sniffed := None |};
     current_async_module := None;
     sys_modules := <["anyio._backends._trio" := trio]>
                      (<["anyio._backends._asyncio" := asyncio]> ∅) |}.

(** A block that does nothing. *)
Definition pass : world -> result unit := fun w => (inr tt, w).

(** A block that leaves [_local.current_async_module] as it found it. *)
Definition keeps_module {A} (body : world -> result A) : Prop :=
  forall w r w', body w = (r, w') ->
                 current_async_module w' = current_async_module w.

End Worker.

(** ** [fail_after] and [move_on_after] *)

Module Timeouts.
Import EventLoop Worker.

(** Modelled from the spec: the backend's cancel scope, which is not part
    of this module (section 3: a deadline that is a clock value or none, a
    cancel-called flag, a shielded flag).  [CancelScope(shield=shield)]
    takes the default deadline, none. *)
Record CancelScope : Type := {
  deadline : option Q;
  cancel_called : bool;
  shield : bool
}.

Definition asynclib_CancelScope (shield : bool) : CancelScope :=
  {| deadline := None; cancel_called := false; shield := shield |}.

(** The async context managers the two functions hand out: the scope
    itself, or what the backend's [fail_after] and [move_on_after] give. *)
Inductive context_manager : Type :=
  | plain_scope (sc : CancelScope)
  | asynclib_fail_after (delay : Q) (shield : bool)
  | asynclib_move_on_after (delay : Q) (shield : bool).

Section WithImports.
Variable importable :
  string -> list (string * asynclib_module) * (exn + asynclib_module).

(** [fail_after(delay, *, shield=False)]:
      if delay is None:
          return _get_asynclib().CancelScope(shield=shield)
      else:
          return _get_asynclib().fail_after(delay, shield=shield)
    The backend is looked up before its function is called; a lookup that
    raises ends the call. *)
Definition fail_after (delay : option Q) (shield : bool) (w : world)
    : result context_manager :=
  match delay with
  | None =>
      via_asynclib importable
        (fun asynclib w' => (inr (plain_scope (asynclib_CancelScope shield)), w')) w
  | Some d =>
      via_asynclib importable
        (fun asynclib w' => (inr (asynclib_fail_after d shield), w')) w
  end.

(** [move_on_after(delay, *, shield=False)], of the same form. *)
Definition move_on_after (delay : option Q) (shield : bool) (w : world)
    : result context_manager :=
  match delay with
  | None =>
      via_asynclib importable
        (fun asynclib w' => (inr (plain_scope (asynclib_CancelScope shield)), w')) w
  | Some d =>
      via_asynclib importable
        (fun asynclib w' => (inr (asynclib_move_on_after d shield), w')) w
  end.

End WithImports.

(** A thread in which trio runs. *)
Definition inside_trio : world :=
  with_sniff (set_cvar (Some "trio") (sniff idle_thread)) idle_thread.

(** Modelled from the spec: what the managers do, which the backends
    implement (sections 4.1 and 7).  The scope entered at clock value [t];
    a deadline that passes before the block is through cancels the block;
    [fail_after] reports that as [TimeoutError], the others leave the block
    silently. *)
Definition enter (cm : context_manager) (t : Q) : CancelScope :=
  match cm with
  | plain_scope sc => sc
  | asynclib_fail_after d sh | asynclib_move_on_after d sh =>
      {| deadline := Some (t + d)%Q; cancel_called := false; shield := sh |}
  end.

Inductive block_exit : Type :=
  | Finished                (* the block ran to its end *)
  | MovedOn                 (* cancelled by the deadline, left silently *)
  | Timed_out (e : exn).    (* cancelled by the deadline, [e] raised *)

(** [duration]: the time the block needs, [None] if it never ends. *)
Definition deadline_fires (sc : CancelScope) (t : Q) (duration : option Q) : bool :=
  match deadline sc, duration with
  | None, _ => false
  | Some dl, None => true
  | Some dl, Some d => negb (Qle_bool (t + d)%Q dl)
  end.

(** [None]: the block never ends and nothing cancels it. *)
Definition guarded_block (cm : context_manager) (t : Q) (duration : option Q)
    : option block_exit :=
  if deadline_fires (enter cm t) t duration then
    match cm with
    | asynclib_fail_after _ _ => Some (Timed_out TimeoutError)
    | _ => Some MovedOn
    end
  else
    match duration with
    | Some _ => Some Finished
    | None => None
    end.

End Timeouts.

(** ** [run_process] *)

Module Subprocess.

(** Constants of the [subprocess] module. *)
Definition PIPE : Z := -1.
Definition STDOUT : Z := -2.
Definition DEVNULL : Z := -3.

(** The process object of the backend: whether it has a [stdin] stream,
    the chunks its [stdout] and [stderr] streams deliver ([None]: no such
    stream), and [returncode] once [wait()] has returned. *)
Record AsyncProcess : Type := {
  p_stdin : bool;
  p_stdout : option (list bytes);
  p_stderr : option (list bytes);
  p_returncode : Z
}.

Record CompletedProcess : Type := {
  cp_args : command;
  cp_returncode : Z;
  cp_stdout : option bytes;
  cp_stderr : option bytes
}.

Inductive call : Type :=
  | c_open_process (cmd : command) (shell : bool) (stdin stdout stderr : Z)
  | c_drain (index : nat)        (* the iteration over a stream *)
  | c_send (data : bytes)
  | c_aclose
  | c_wait
  | c_kill.

(** The environment: which awaits raise (cancellation included), and the
    process the backend starts. *)
Record env : Type := Env {
  raises : call -> option exn;
  process_of : command -> bool -> Z -> Z -> Z -> AsyncProcess
}.

Record world : Type := World {
  killed : bool;
  stream_contents : list (option bytes);
  calls : list call
}.

Definition empty_world : world :=
  {| killed := false; stream_contents := []; calls := [] |}.

Abbreviation M := (Eff.M world).

(** Truth value of an [Optional[bytes]]. *)
Definition truthy_bytes (b : option bytes) : bool :=
  match b with
  | Some (_ :: _) => true
  | _ => false
  end.

(** [b''.join(chunks)] *)
Definition bytes_join (chunks : list bytes) : bytes := concat chunks.

Section WithEnv.
Variable E : env.

Definition invoke (c : call) : M unit :=
  fun w =>
    let w' := {| killed := killed w; stream_contents := stream_contents w;
                 calls := calls w ++ [c] |} in
    match raises E c with
    | Some e => (inl e, w')
    | None => (inr tt, w')
    end.

Definition set_stream_contents (l : list (option bytes)) : M unit :=
  fun w => (inr tt, {| killed := killed w; stream_contents := l;
                       calls := calls w |}).

Definition get_stream_contents : M (list (option bytes)) :=
  fun w => (inr (stream_contents w), w).

(** [process.kill()] *)
Definition kill : M unit :=
  fun w => (inr tt, {| killed := true; stream_contents := stream_contents w;
                       calls := calls w ++ [c_kill] |}).

(** [open_process]: [shell = isinstance(command, str)], the rest is the
    backend's. *)
Definition open_process (cmd : command) (stdin stdout stderr : Z)
    : M AsyncProcess :=
  let shell := match cmd with Shell _ => true | Argv _ => false end in
  invoke (c_open_process cmd shell stdin stdout stderr);;
  mret (process_of E cmd shell stdin stdout stderr).

(** The closure [drain_stream(stream, index)]:
      chunks = [chunk async for chunk in stream]
      stream_contents[index] = b''.join(chunks) *)
Definition drain_stream (chunks : list bytes) (index : nat) : M unit :=
  invoke (c_drain index);;
  l ← get_stream_contents;
  set_stream_contents (<[index := Some (bytes_join chunks)]> l).

(** The block under [try]:
      async with create_task_group() as tg:
          if process.stdout: await tg.spawn(drain_stream, process.stdout, 0)
          if process.stderr: await tg.spawn(drain_stream, process.stderr, 1)
          if process.stdin and input:
              await process.stdin.send(input)
              await process.stdin.aclose()
          await process.wait()
    The children of the task group are run where they are spawned; an
    exception of a child or of the body leaves the group at once.  This is
    the course of the block when at most one of its awaits raises; several
    failures at a time, which the group reports as one aggregate, are not
    shown. *)
Definition streaming_block (process : AsyncProcess) (input : option bytes)
    : M unit :=
  match p_stdout process with
  | Some chunks => drain_stream chunks 0
  | None => mret tt
  end;;
  match p_stderr process with
  | Some chunks => drain_stream chunks 1
  | None => mret tt
  end;;
  when (p_stdin process && truthy_bytes input)
    (invoke (c_send (default [] input));; invoke c_aclose);;
  invoke c_wait.

Definition run_process (cmd : command) (input : option bytes)
    (stdout stderr : Z) (check : bool) : M CompletedProcess :=
  process ← open_process cmd (if truthy_bytes input then PIPE else DEVNULL)
                         stdout stderr;
  set_stream_contents [None; None];;
  try_except_reraise (streaming_block process input) kill;;
  (* output, errors = stream_contents *)
  l ← get_stream_contents;
  let output := mjoin (l !! 0%nat) in
  let errors := mjoin (l !! 1%nat) in
  if check && negb (p_returncode process =? 0)%Z
  then raise (CalledProcessError (p_returncode process) cmd output errors)
  else mret {| cp_args := cmd; cp_returncode := p_returncode process;
               cp_stdout := output; cp_stderr := errors |}.

End WithEnv.


(** *** Sample environments *)

(** The world once [open_process] has returned and [stream_contents] is
    [[None, None]]. *)
Definition after_open (E : env) (cmd : command) (input : option bytes)
    (stdout stderr : Z) (w : world) : world :=
  {| killed := killed w; stream_contents := [None; None];
     calls := calls w ++ [c_open_process cmd
                            (match cmd with Shell _ => true | Argv _ => false end)
                            (if truthy_bytes input then PIPE else DEVNULL)
                            stdout stderr] |}.

(** [false] run with [check]: no input, both streams piped, exit status 1. *)
Definition false_env : env :=
  {| raises := λ _, None;
     process_of := λ _ _ _ _ _,
       {| p_stdin := false; p_stdout := Some []; 
          p_stderr := Some [[Byte.x6e; Byte.x6f]; [Byte.x0a]];
          p_returncode := 1 |} |}.

(** A cancellation that arrives during [process.wait()]. *)
Definition cancelled_env : env :=
  {| raises := λ c, match c with c_wait => Some CancelledError | _ => None end;
     process_of := process_of false_env |}.

End Subprocess.

(** ** The race: sockets, errors and cancellation kept in step *)

Module RaceAccounting.
Import ConnectTcp.

(** 1 when the attempt has appended its error to [oserrors]: it returned
    without an open socket (the first [except OSError] leaves no socket,
    the second closes it). *)
Definition recorded (a : attempt) : nat :=
  match at_task a, at_socket a with
  | Returned, SockOpen => 0
  | Returned, _ => 1
  | _, _ => 0
  end.

(** The socket of an attempt follows its task. *)
Definition socket_follows_task (s : race) (a : attempt) : Prop :=
  match at_task a with
  | Spawned => at_socket a = NoSocket
  | Connecting => at_socket a = SockOpen
  | Returned => at_socket a = SockOpen → is_Some (stream s)
  | Raised _ => at_socket a = SockClosed
  end.

(** An attempt has ended with an error that is no cancellation. *)
Definition child_failed (s : race) : Prop :=
  ∃ i a e, attempts s !! i = Some a
           ∧ at_task a = Raised e ∧ is_cancellation e = false.

Record coherent (s : race) : Prop := {
  coh_sockets : ∀ i a, attempts s !! i = Some a → socket_follows_task s a;
  coh_cancel : cancel_called s = true ↔ is_Some (stream s) ∨ child_failed s;
  coh_abort : launcher s = Aborted → cancel_called s = true;
  coh_errors : length (oserrors s) = sum_list (recorded <$> attempts s)
}.

(** The first attempt ends with an exception that is no [OSError] (a
    local port out of range, say); the group cancels its scope and the
    loop is left with a candidate not tried. *)
Definition child_fails : list event :=
  [Spawn; Start 0 None; Resolve 0 (Raise (ValueError "boom")); Abort].

Definition state_child_fails : race :=
  Eval vm_compute in
    default (init [] 0) (run (init [c6; c4] (1 # 4)) child_fails).

(** The state after [both_succeed]. *)
Definition state_both_succeed : race :=
  Eval vm_compute in
    default (init [] 0) (run (init [c6; c4] (1 # 4)) both_succeed).

End RaceAccounting.

(** ** The socket constructors: sample environments *)

Module SocketsSamples.
Import ConnectTcp Sockets.

Local Open Scope list_scope.

(** What became of the descriptor a constructor made: open and returned,
    or closed. *)
Definition returned_open_or_closed (w : world) (r : exn + nat) (w' : world)
    : Prop :=
  match r with
  | inr fd => fd = length (sockets w) ∧ sockets w' = sockets w ++ [SockOpen]
  | inl _ => sockets w' = sockets w ++ [SockClosed]
  end.

(** Every call of the operating system goes through, the backend
    refuses; the resolver knows no host. *)
Definition backend_refuses : env :=
  {| raises := λ c,
       match c with
       | c_asynclib_connect_unix _ _ | c_asynclib_create_tcp_listener _
       | c_asynclib_create_unix_listener _ | c_asynclib_create_udp_socket _ =>
           Some (OSError "Connection refused")
       | _ => None
       end;
     bind_address := λ itf, (itf, AF_INET, true);
     addrinfo_of := λ _ _ _, [];
     win32 := false;
     repr := repr_str |}.

End SocketsSamples.

(** ** [TaskInfo] *)

Module Tasks.

(** The coroutine or generator object a task runs, with the attributes the
    properties read. *)
Inductive coro_or_gen (FrameType awaitable : Type) : Type :=
  | Coroutine (cr_frame : option FrameType) (cr_await : option awaitable)
              (cr_running : bool)
  | Generator (gi_frame : option FrameType) (gi_yieldfrom : option awaitable)
              (gi_running : bool).
Arguments Coroutine {FrameType awaitable}.
Arguments Generator {FrameType awaitable}.

Section TaskInfo.
Context {FrameType awaitable : Type}.

Record TaskInfo : Type := {
  id : Z;
  parent_id : option Z;
  name : option string;
  _coro_or_gen : coro_or_gen FrameType awaitable
}.

Definition frame (self : TaskInfo) : option FrameType :=
  match _coro_or_gen self with
  | Coroutine cr_frame _ _ => cr_frame
  | Generator gi_frame _ _ => gi_frame
  end.

Definition waiting_on (self : TaskInfo) : option awaitable :=
  match _coro_or_gen self with
  | Coroutine _ cr_await _ => cr_await
  | Generator _ gi_yieldfrom _ => gi_yieldfrom
  end.

Definition running (self : TaskInfo) : bool :=
  match _coro_or_gen self with
  | Coroutine _ _ cr_running => cr_running
  | Generator _ _ gi_running => gi_running
  end.

(** The right operand of [==]: a [TaskInfo] or an object of another
    type. *)
Inductive object : Type :=
  | a_task (t : TaskInfo)
  | another (repr : string).

Inductive eq_result : Type :=
  | Bool (b : bool)
  | NotImplemented.

Definition __eq__ (self : TaskInfo) (other : object) : eq_result :=
  match other with
  | a_task o => Bool (id self =? id o)%Z
  | another _ => NotImplemented
  end.

(** [hash] is the builtin on integers. *)
Definition __hash__ (hash : Z -> Z) (self : TaskInfo) : Z := hash (id self).

End TaskInfo.
End Tasks.

(** ** [run_process]: the calls of its block *)

Module SubprocessCalls.
Import Subprocess.

(** The calls the block can make. *)
Definition block_calls (input : option bytes) : list call :=
  [c_drain 0; c_drain 1; c_send (default [] input); c_aclose; c_wait].

(** At most one of the awaits of the block raises. *)
Definition at_most_one_raises (E : env) (input : option bytes) : Prop :=
  ∀ c c', c ∈ block_calls input → c' ∈ block_calls input →
          is_Some (raises E c) → is_Some (raises E c') → c = c'.

End SubprocessCalls.

(** * Properties *)

Module EffFacts.
Import Eff.

Section WithWorld.
Context {W : Type}.

Lemma bind_unfold {A B} (m : M W A) (k : A → M W B) w :
  (m ≫= k) w = match m w with
               | (inr x, w') => k x w'
               | (inl e, w') => (inl e, w')
               end.
Proof. reflexivity. Qed.

Lemma bind_returns {A B} (m : M W A) (k : A → M W B) w y w' :
  (m ≫= k) w = (inr y, w') →
  ∃ x w1, m w = (inr x, w1) ∧ k x w1 = (inr y, w').
Proof.
  rewrite bind_unfold. destruct (m w) as [[e|x] w1]; [done|eauto].
Qed.

Lemma keeps_ret {A B} (proj : W → B) (x : A) : keeps proj (mret x).
Proof. intros w r w' H. by injection H as _ <-. Qed.

Lemma keeps_raise {A B} (proj : W → B) e : keeps proj (raise (A := A) e).
Proof. intros w r w' H. by injection H as _ <-. Qed.

Lemma keeps_bind {A B C} (proj : W → C) (m : M W A) (k : A → M W B) :
  keeps proj m → (∀ x, keeps proj (k x)) → keeps proj (m ≫= k).
Proof.
  intros Hm Hk w r w' H. rewrite bind_unfold in H.
  destruct (m w) as [[e|x] w1] eqn:Hmw.
  - injection H as _ <-. eauto.
  - rewrite (Hk _ _ _ _ H). eauto.
Qed.

Lemma keeps_when {B} (proj : W → B) b (m : M W unit) :
  keeps proj m → keeps proj (when b m).
Proof. destruct b; [done|]. intros _. apply keeps_ret. Qed.

End WithWorld.

Create HintDb keeps discriminated.
#[export] Hint Resolve keeps_ret keeps_raise keeps_bind keeps_when : keeps.

End EffFacts.

Module ConnectTcpFacts.
Import ConnectTcp.

Local Open Scope Q_scope.

Ltac step_cases H :=
  unfold step, spawn, start, resolve, wake, timeout, abort, tick,
         set_attempt, set_launcher in H;
  repeat case_match; simplify_eq.

(** *** Runs *)

(** A property that holds at the start and that every step keeps holds
    after every run. *)
Lemma run_invariant (P : race → Prop) s0 :
  P s0 →
  (∀ s ev s', P s → step s ev = Some s' → P s') →
  ∀ evs s, run s0 evs = Some s → P s.
Proof.
  intros H0 Hstep evs. revert s0 H0.
  induction evs as [|ev evs IH]; intros s0 H0 s Hrun; simpl in Hrun.
  - by simplify_eq.
  - destruct (step s0 ev) as [s1|] eqn:Hs; [|done]. eauto.
Qed.

(** *** The winner slot *)

Lemma step_keeps_winner s ev s' w :
  step s ev = Some s' → stream s = Some w → stream s' = Some w.
Proof.
  intros Hstep Hw. destruct ev; step_cases Hstep; simpl; congruence.
Qed.

Lemma run_keeps_winner evs : ∀ s s' w,
  run s evs = Some s' → stream s = Some w → stream s' = Some w.
Proof.
  induction evs as [|ev evs IH]; intros s s' w Hrun Hw; simpl in Hrun.
  - by simplify_eq.
  - destruct (step s ev) as [s1|] eqn:Hs; [|done].
    eauto using step_keeps_winner.
Qed.

Lemma connected_claims_empty_slot s i s' :
  step s (Resolve i Connected) = Some s' → stream s = None →
  ∃ a, attempts s !! i = Some a
       ∧ stream s' = Some {| stream_socket := i; stream_peer := at_sa a |}
       ∧ cancel_called s' = true.
Proof.
  intros Hstep Hnone. step_cases Hstep. eauto.
Qed.

(** Only a successful connect writes the slot. *)
Lemma step_fills_slot s ev s' :
  step s ev = Some s' → stream s = None → is_Some (stream s') →
  ∃ i, ev = Resolve i Connected.
Proof.
  intros Hstep Hnone [w Hw].
  destruct ev; step_cases Hstep; simpl in *; try congruence; eauto.
Qed.

(** C1: in the race of [connect_tcp], for every interleaving, the first
    attempt whose connect succeeds while the winner slot [stream] is empty
    stores its result there and cancels the scope of the task group; a
    successful attempt that finds the slot taken leaves it as it is, and
    nothing that happens afterwards changes the stored winner. *)
Theorem winner_slot_claimed_once s i s' :
  step s (Resolve i Connected) = Some s' →
  (stream s = None →
     ∃ a, attempts s !! i = Some a
          ∧ stream s' = Some {| stream_socket := i; stream_peer := at_sa a |}
          ∧ cancel_called s' = true)
  ∧ (∀ w, stream s = Some w → stream s' = Some w)
  ∧ (∀ evs s'', run s' evs = Some s'' → stream s'' = stream s' ∧ is_Some (stream s'')).
Proof.
  intros Hstep. split_and!.
  - by apply connected_claims_empty_slot.
  - intros w. apply (step_keeps_winner _ _ _ w Hstep).
  - intros evs s'' Hrun.
    assert (∃ w, stream s' = Some w) as [w Hw].
    { destruct (stream s) as [w|] eqn:Hs.
      - exists w. apply (step_keeps_winner _ _ _ _ Hstep Hs).
      - destruct (connected_claims_empty_slot _ _ _ Hstep Hs) as (a & _ & ? & _).
        eauto. }
    rewrite (run_keeps_winner _ _ _ _ Hrun Hw), Hw. eauto.
Qed.

Lemma winner_slot_claimed_once_witness :
  run (init [c6; c4] (1 # 4)) both_connecting = Some state_both_connecting
  ∧ ∃ s', step state_both_connecting (Resolve 1%nat Connected) = Some s'
    ∧ (stream state_both_connecting = None →
         ∃ a, attempts state_both_connecting !! 1%nat = Some a
              ∧ stream s' = Some {| stream_socket := 1; stream_peer := at_sa a |}
              ∧ cancel_called s' = true)
    ∧ (∀ w, stream state_both_connecting = Some w → stream s' = Some w)
    ∧ (∀ evs s'', run s' evs = Some s'' →
                  stream s'' = stream s' ∧ is_Some (stream s'')).
Proof.
  split; [reflexivity|]. eexists. split; [reflexivity|].
  apply (winner_slot_claimed_once state_both_connecting 1%nat). reflexivity.
Defined.

(** The stored winner is the stream of an attempt that returned with its
    socket open, and the scope is cancelled from the claim on. *)
Lemma winner_is_a_connected_attempt addrs delay evs s w :
  run (init addrs delay) evs = Some s → stream s = Some w →
  cancel_called s = true
  ∧ ∃ a, attempts s !! stream_socket w = Some a
         ∧ stream_peer w = at_sa a
         ∧ at_task a = Returned ∧ at_socket a = SockOpen.
Proof.
  intros Hrun. revert w.
  pose (P := λ s, (∀ i a, attempts s !! i = Some a → at_task a = Connecting →
                          at_socket a = SockOpen)
                  ∧ ∀ w, stream s = Some w →
                      cancel_called s = true
                      ∧ ∃ a, attempts s !! stream_socket w = Some a
                             ∧ stream_peer w = at_sa a
                             ∧ at_task a = Returned ∧ at_socket a = SockOpen).
  cut (P s); [by intros [_ ?]|].
  revert Hrun. apply (run_invariant P); [done|].
  clear. intros s ev s' [Hc Hw] Hstep.
  assert (∀ i (a a' : attempt) w,
            attempts s !! i = Some a → at_task a ≠ Returned →
            at_sa a' = at_sa a →
            (∃ b, attempts s !! stream_socket w = Some b
                   ∧ stream_peer w = at_sa b
                   ∧ at_task b = Returned ∧ at_socket b = SockOpen) →
            ∃ b, <[i := a']> (attempts s) !! stream_socket w = Some b
                   ∧ stream_peer w = at_sa b
                   ∧ at_task b = Returned ∧ at_socket b = SockOpen) as Hkeep.
  { intros i a a' w Hi Hnr Hsa (b & Hb & Hp & Ht & Ho).
    exists b. rewrite list_lookup_insert_ne; [done|].
    intros ->. congruence. }
  assert (∀ i (a a' : attempt) j b,
            attempts s !! i = Some a →
            (at_task a' = Connecting → at_socket a' = SockOpen) →
            <[i := a']> (attempts s) !! j = Some b →
            at_task b = Connecting → at_socket b = SockOpen) as Hconn.
  { intros i a a' j b Hi Ha' Hj. destruct (decide (i = j)) as [->|Hne].
    - rewrite list_lookup_insert_eq in Hj by (by eapply lookup_lt_Some).
      by simplify_eq.
    - rewrite list_lookup_insert_ne in Hj by done. eauto. }
  destruct ev; step_cases Hstep; split; simpl; eauto.
  all: try (intros j b Hj; apply lookup_app_Some in Hj as [Hj|[_ Hj]]; [eauto|];
            apply list_lookup_singleton_Some in Hj as [_ <-]; done).
  all: try (intros w Hs; destruct (Hw _ Hs) as (? & b & Hb & ?); split; [done|];
            exists b; split; [|done]; apply lookup_app_l_Some; done).
  all: try (intros j b; eapply Hconn; eauto; simpl; done).
  all: try (intros w Hs; destruct (Hw _ Hs) as (? & Hb); split; [done|];
            eapply Hkeep; eauto; simpl; congruence).
  - intros w [= <-]. simpl. split; [done|].
    eexists. split; [apply list_lookup_insert_eq; by eapply lookup_lt_Some|].
    simpl. eauto.
  - intros w Hs. destruct (Hw _ Hs) as (Hcc & Hb). rewrite Hcc. split; [done|].
    eapply Hkeep; eauto; simpl; congruence.
Qed.

(** *** The staggered loop *)

Lemma inv_init addrs delay : inv addrs delay (init addrs delay).
Proof.
  split; simpl; try done.
Qed.

(** An attempt moves on; the loop and the clock stay as they are. *)
Lemma inv_update addrs delay s s' i a a' :
  inv addrs delay s →
  attempts s !! i = Some a →
  attempts s' = <[i := a']> (attempts s) →
  pending s' = pending s → launcher s' = launcher s →
  happy_eyeballs_delay s' = happy_eyeballs_delay s → now s' = now s →
  at_af a' = at_af a → at_sa a' = at_sa a → at_spawned a' = at_spawned a →
  at_event a' = concluded a' →
  (at_event a' = false → at_done a' = None) →
  (at_event a' = true → is_Some (at_done a')) →
  (at_done a' = at_done a ∨ at_done a' = Some (now s)) →
  inv addrs delay s'.
Proof.
  intros [Hd Ho Hs He Hg Hw Hdue] Hi Hatt Hpend Hl Hdel Hnow Haf Hsa Hsp Hev Hnd Hsd Hdone.
  assert (i < length (attempts s))%nat as Hlt by (by eapply lookup_lt_Some).
  split.
  - congruence.
  - rewrite <- Ho. unfold spawned_candidates. rewrite Hatt, Hpend. f_equal.
    rewrite list_fmap_insert, Haf, Hsa.
    apply list_insert_id. by rewrite list_lookup_fmap, Hi.
  - intros j b Hj. rewrite Hatt in Hj. rewrite Hnow.
    destruct (decide (i = j)) as [->|Hne].
    + rewrite list_lookup_insert_eq in Hj by done. simplify_eq.
      rewrite Hsp. eauto.
    + rewrite list_lookup_insert_ne in Hj by done. eauto.
  - intros j b Hj. rewrite Hatt in Hj.
    destruct (decide (i = j)) as [->|Hne].
    + rewrite list_lookup_insert_eq in Hj by done. by simplify_eq.
    + rewrite list_lookup_insert_ne in Hj by done. eauto.
  - intros j b c Hj HSj. rewrite Hatt in Hj, HSj.
    destruct (decide (i = j)) as [->|Hne]; [|destruct (decide (i = S j)) as [->|Hne']].
    + rewrite list_lookup_insert_eq in Hj by done.
      rewrite list_lookup_insert_ne in HSj by lia. simplify_eq.
      destruct (Hg _ _ _ Hi HSj) as (H1 & H2 & H3). rewrite Hsp.
      split_and!; [done..|]. intros t Ht.
      destruct Hdone as [Hsame|Hnew].
      * apply H3. congruence.
      * rewrite Hnew in Ht. simplify_eq. eauto.
    + rewrite list_lookup_insert_ne in Hj by lia.
      rewrite list_lookup_insert_eq in HSj by done. simplify_eq.
      rewrite Hsp. eauto.
    + rewrite list_lookup_insert_ne in Hj, HSj by done. eauto.
  - intros j d Hj. rewrite Hl in Hj. destruct (Hw _ _ Hj) as (Hlen & b & Hb & ->).
    rewrite Hatt, length_insert. split; [done|].
    destruct (decide (i = j)) as [->|Hne].
    + exists a'. rewrite list_lookup_insert_eq by done. simplify_eq.
      by rewrite Hsp.
    + exists b. by rewrite list_lookup_insert_ne.
  - unfold loop_due. rewrite Hl, Hpend, Hatt, length_insert, Hnow.
    intros Hdue' b Hb.
    destruct (decide (i = pred (length (attempts s)))) as [Heq|Hne].
    + rewrite <- Heq in Hb, Hdue. rewrite list_lookup_insert_eq in Hb by done.
      destruct (Hdue Hdue' _ Hi) as [H1 H2].
      assert (b = a') as -> by congruence.
      rewrite Hsp. split; [done|].
      intros t Ht. destruct Hdone as [Hsame|Hnew].
      * apply H2. congruence.
      * rewrite Hnew in Ht. assert (t = now s) as -> by congruence.
        apply Qle_refl.
    + rewrite list_lookup_insert_ne in Hb by done. eauto.
Qed.

Lemma inv_spawn addrs delay s s' :
  0 <= delay → inv addrs delay s → spawn s = Some s' → inv addrs delay s'.
Proof.
  intros Hpos [Hd Ho Hs He Hg Hw Hdue] Hstep.
  unfold spawn in Hstep. repeat case_match; simplify_eq.
  assert (loop_due s) as Hld.
  { unfold loop_due. case_match; try done; congruence. }
  specialize (Hdue Hld).
  split; simpl.
  - done.
  - rewrite <- Ho. unfold spawned_candidates. simpl.
    rewrite map_app. simpl. by rewrite <- app_assoc.
  - intros i b Hi. apply lookup_app_Some in Hi as [Hi|[_ Hi]]; [eauto|].
    apply list_lookup_singleton_Some in Hi as [_ <-]. simpl. apply Qle_refl.
  - intros i b Hi. apply lookup_app_Some in Hi as [Hi|[_ Hi]]; [eauto|].
    by apply list_lookup_singleton_Some in Hi as [_ <-].
  - intros i b c Hi HSi.
    apply lookup_app_Some in HSi as [HSi|[Hlen HSi]].
    + rewrite lookup_app_l in Hi by (apply lookup_lt_Some in HSi; lia). eauto.
    + apply list_lookup_singleton_Some in HSi as [Hz <-]. simpl.
      assert (i = pred (length (attempts s))) as -> by lia.
      rewrite lookup_app_l in Hi by lia.
      destruct (Hdue _ Hi) as [H1 H2]. split_and!; eauto.
  - intros i d Hi. simplify_eq. rewrite length_app. simpl. split; [lia|].
    eexists. split; [by rewrite lookup_app_r, Nat.sub_diag by done|]. done.
  - intros _ b Hb. rewrite length_app in Hb. simpl in Hb.
    replace (pred (length (attempts s) + 1)) with (length (attempts s)) in Hb by lia.
    rewrite lookup_app_r, Nat.sub_diag in Hb by done. simpl in Hb. simplify_eq.
    simpl. split; [lra|done].
Qed.

Lemma inv_start addrs delay s s' i err :
  inv addrs delay s → start i err s = Some s' → inv addrs delay s'.
Proof.
  intros Hinv Hstep. unfold start, set_attempt in Hstep.
  repeat case_match; simplify_eq.
  - eapply inv_update; eauto; simpl; eauto; done.
  - eapply inv_update; eauto; simpl; eauto.
    + destruct (inv_event _ _ _ Hinv _ _ ltac:(eassumption)) as [-> _].
      unfold concluded. by case_match.
    + by destruct (inv_event _ _ _ Hinv _ _ ltac:(eassumption)) as (_ & ? & _).
    + by destruct (inv_event _ _ _ Hinv _ _ ltac:(eassumption)) as (_ & _ & ?).
Qed.

Lemma inv_resolve addrs delay s s' i o :
  inv addrs delay s → resolve i o s = Some s' → inv addrs delay s'.
Proof.
  intros Hinv Hstep. unfold resolve, set_attempt in Hstep.
  repeat case_match; simplify_eq; eapply inv_update; eauto; simpl; eauto; done.
Qed.

Lemma inv_set_launcher addrs delay s l :
  inv addrs delay s → launcher s ≠ Aborted → l = Ready ∨ l = Aborted →
  inv addrs delay (set_launcher l s).
Proof.
  intros [Hd Ho Hs He Hg Hw Hdue] Hna Hl. split; simpl; try done.
  - intros i d ?. destruct Hl; congruence.
  - unfold loop_due in *. simpl. intros Hdue'. apply Hdue.
    destruct Hl as [-> | ->]; [|done]. by destruct (launcher s).
Qed.

Lemma inv_tick addrs delay s s' dt :
  inv addrs delay s → tick dt s = Some s' → inv addrs delay s'.
Proof.
  intros [Hd Ho Hs He Hg Hw Hdue] Hstep. unfold tick in Hstep.
  case_match eqn:Hguard; simplify_eq.
  apply andb_true_iff in Hguard as [Hdt Hpass]. apply Qle_bool_iff in Hdt.
  split; simpl; try done.
  - intros i a Hi. specialize (Hs _ _ Hi). lra.
  - unfold loop_due, may_pass in *. simpl. intros Hdue' a Ha.
    destruct (launcher s) as [|i d|] eqn:Hl; [by destruct (pending s)| |done].
    apply andb_true_iff in Hpass as [Hunset Hle]. apply Qle_bool_iff in Hle.
    destruct (Hw _ _ eq_refl) as (Hlen & b & Hb & ->).
    assert (i = pred (length (attempts s))) as -> by lia.
    assert (b = a) as -> by congruence.
    split; [done|]. intros t Ht.
    unfold event_is_set in Hunset. rewrite Ha in Hunset.
    apply negb_true_iff in Hunset.
    destruct (He _ _ Ha) as (_ & Hnone & _). rewrite Hnone in Ht; done.
Qed.

Lemma inv_step addrs delay s ev s' :
  0 <= delay → inv addrs delay s → step s ev = Some s' → inv addrs delay s'.
Proof.
  intros Hpos Hinv Hstep. destruct ev; simpl in Hstep.
  - by eapply inv_spawn.
  - by eapply inv_start.
  - by eapply inv_resolve.
  - unfold wake in Hstep. repeat case_match; simplify_eq.
    apply inv_set_launcher; [done|congruence|by left].
  - unfold timeout in Hstep. repeat case_match; simplify_eq.
    apply inv_set_launcher; [done|congruence|by left].
  - unfold abort in Hstep. repeat case_match; simplify_eq;
      (apply inv_set_launcher; [done|congruence|by right]).
  - by eapply inv_tick.
Qed.

Lemma inv_run addrs delay evs s :
  0 <= delay → run (init addrs delay) evs = Some s → inv addrs delay s.
Proof.
  intros Hpos. apply (run_invariant (inv addrs delay)).
  - apply inv_init.
  - intros ???. by apply inv_step.
Qed.

Lemma paced_init delay addrs : paced delay (init addrs delay).
Proof. split; simpl; done. Qed.

Lemma paced_update delay s s' i a a' :
  paced delay s →
  attempts s !! i = Some a →
  attempts s' = <[i := a']> (attempts s) →
  pending s' = pending s → launcher s' = launcher s → now s' = now s →
  at_spawned a' = at_spawned a →
  (at_done a' = at_done a ∨ (at_done a = None ∧ at_done a' = Some (now s))) →
  paced delay s'.
Proof.
  intros [Hd Hg Hr] Hi Hatt Hpend Hl Hnow Hsp Hdone.
  assert (i < length (attempts s))%nat as Hlt by (by eapply lookup_lt_Some).
  split.
  - intros j b t Hj Ht. rewrite Hatt in Hj. rewrite Hnow.
    destruct (decide (i = j)) as [->|Hne].
    + rewrite list_lookup_insert_eq in Hj by done. simplify_eq.
      destruct Hdone as [Hsame|[_ Hnew]].
      * rewrite Hsame in Ht. eauto.
      * rewrite Hnew in Ht. simplify_eq. apply Qle_refl.
    + rewrite list_lookup_insert_ne in Hj by done. eauto.
  - intros j b c Hj HSj. rewrite Hatt in Hj, HSj.
    destruct (decide (i = j)) as [->|Hne]; [|destruct (decide (i = S j)) as [->|Hne']].
    + rewrite list_lookup_insert_eq in Hj by done.
      rewrite list_lookup_insert_ne in HSj by lia. simplify_eq.
      rewrite Hsp. destruct (Hg _ _ _ Hi HSj) as [H1|(t & Ht & H1)]; [by left|].
      right. exists t. split; [|done].
      destruct Hdone as [Hsame|[Hnone _]]; congruence.
    + rewrite list_lookup_insert_ne in Hj by lia.
      rewrite list_lookup_insert_eq in HSj by done. simplify_eq.
      rewrite Hsp. eauto.
    + rewrite list_lookup_insert_ne in Hj, HSj by done. eauto.
  - rewrite Hl, Hpend, Hatt, length_insert, Hnow. intros Hrd Hp b Hb.
    destruct (decide (i = pred (length (attempts s)))) as [Heq|Hne].
    + rewrite <- Heq in Hb, Hr. rewrite list_lookup_insert_eq in Hb by done.
      simplify_eq. rewrite Hsp.
      destruct (Hr Hrd Hp _ Hi) as [H1|(t & Ht & H1)]; [by left|].
      right. exists t. split; [|done].
      destruct Hdone as [Hsame|[Hnone _]]; congruence.
    + rewrite list_lookup_insert_ne in Hb by done. eauto.
Qed.

Lemma unconcluded_not_done addrs delay s i a :
  inv addrs delay s → attempts s !! i = Some a → concluded a = false →
  at_done a = None.
Proof.
  intros Hinv Hi Hc. destruct (inv_event _ _ _ Hinv _ _ Hi) as (Hev & Hnone & _).
  apply Hnone. congruence.
Qed.

Lemma paced_step addrs delay s ev s' :
  0 <= delay → inv addrs delay s → paced delay s → step s ev = Some s' →
  paced delay s'.
Proof.
  intros Hpos Hinv Hp Hstep. pose proof Hp as [Hd Hg Hr].
  destruct ev; simpl in Hstep.
  - (* Spawn *)
    unfold spawn in Hstep. repeat case_match; simplify_eq.
    split; simpl.
    + intros i b t Hi Ht. apply lookup_app_Some in Hi as [Hi|[_ Hi]]; [eauto|].
      apply list_lookup_singleton_Some in Hi as [_ <-]. done.
    + intros i b c Hi HSi.
      apply lookup_app_Some in HSi as [HSi|[Hlen HSi]].
      * rewrite lookup_app_l in Hi by (apply lookup_lt_Some in HSi; lia). eauto.
      * apply list_lookup_singleton_Some in HSi as [Hz <-]. simpl.
        assert (i = pred (length (attempts s))) as -> by lia.
        rewrite lookup_app_l in Hi by lia.
        apply Hr; [done|congruence|done].
    + done.
  - (* Start *)
    unfold start, set_attempt in Hstep. repeat case_match; simplify_eq.
    + eapply paced_update; eauto; simpl; try done.
      right. split; [|done]. eapply unconcluded_not_done; eauto.
      unfold concluded. by case_match.
    + eapply paced_update; eauto; simpl; auto.
  - (* Resolve *)
    unfold resolve, set_attempt in Hstep.
    repeat case_match; simplify_eq;
      (eapply paced_update; eauto; simpl; try done;
       right; split; [|done]; eapply unconcluded_not_done; eauto;
       unfold concluded; by case_match).
  - (* Wake *)
    unfold wake in Hstep. repeat case_match; simplify_eq.
    split; simpl; try done. intros _ Hpend a Ha.
    match goal with H : launcher s = Waiting ?i ?d |- _ =>
      destruct (inv_waiting _ _ _ Hinv _ _ H) as (Hlen & b & Hb & ->);
      pose proof H as Hl;
      assert (i = pred (length (attempts s))) as Hlast by lia;
      rewrite Hlast in * end.
    assert (b = a) as -> by congruence.
    match goal with H : event_is_set _ _ = true |- _ =>
      unfold event_is_set in H; rewrite Ha in H; rename H into Hset end.
    destruct (inv_event _ _ _ Hinv _ _ Ha) as (_ & _ & Hsome).
    destruct (Hsome Hset) as [t Ht]. right. exists t. split; [done|].
    assert (loop_due s) as Hld by (unfold loop_due; by rewrite Hl).
    destruct (inv_due _ _ _ Hinv Hld _ Ha) as [_ Hle].
    apply Qle_antisym; eauto.
  - (* Timeout *)
    unfold timeout in Hstep. repeat case_match; simplify_eq.
    split; simpl; try done. intros _ Hpend a Ha.
    match goal with H : launcher s = Waiting ?i ?d |- _ =>
      destruct (inv_waiting _ _ _ Hinv _ _ H) as (Hlen & b & Hb & ->);
      pose proof H as Hl;
      assert (i = pred (length (attempts s))) as Hlast by lia;
      rewrite Hlast in * end.
    assert (b = a) as -> by congruence.
    assert (loop_due s) as Hld by (unfold loop_due; by rewrite Hl).
    destruct (inv_due _ _ _ Hinv Hld _ Ha) as [Hle _].
    left. apply Qle_antisym; [done|]. by apply Qle_bool_iff.
  - (* Abort *)
    unfold abort in Hstep. repeat case_match; simplify_eq; split; simpl; done.
  - (* Tick *)
    unfold tick in Hstep. case_match eqn:Hguard; simplify_eq.
    apply andb_true_iff in Hguard as [Hdt Hpass]. apply Qle_bool_iff in Hdt.
    split; simpl; try done.
    + intros i a t Hi Ht. specialize (Hd _ _ _ Hi Ht). lra.
    + intros Hrd Hpend. unfold may_pass in Hpass. rewrite Hrd in Hpass.
      by destruct (pending s).
Qed.

Lemma paced_run addrs delay evs s :
  0 <= delay → run (init addrs delay) evs = Some s →
  inv addrs delay s ∧ paced delay s.
Proof.
  intros Hpos.
  apply (run_invariant (λ s, inv addrs delay s ∧ paced delay s)).
  - split; [apply inv_init|apply paced_init].
  - intros s0 ev s1 [Hinv Hp] Hstep. split.
    + by eapply inv_step.
    + by eapply paced_step.
Qed.



(** *** The end of the race *)

Lemma oserrors_are_OSErrors addrs delay evs s :
  run (init addrs delay) evs = Some s →
  Forall (λ e, is_OSError e = true) (oserrors s).
Proof.
  apply (run_invariant (λ s, Forall (λ e, is_OSError e = true) (oserrors s))).
  - constructor.
  - intros s0 ev s1 HP Hstep.
    destruct ev; step_cases Hstep; simpl; try done;
      apply Forall_app; split; try done; by repeat constructor.
Qed.

(** C2, as stated, fails: with the single candidate refused, the one
    recorded error is not what [connect_tcp] raises; it raises a new
    [OSError] that carries the recorded error as its cause. *)
Lemma single_refusal_is_wrapped :
  run (init [c4] default_happy_eyeballs_delay) refused_alone
    = Some state_refused_alone
  ∧ stream state_refused_alone = None
  ∧ oserrors state_refused_alone = [OSError "Connection refused"]
  ∧ connect_tcp_exit state_refused_alone
    = Some (inl (RaiseFrom (OSError "All connection attempts failed")
                           (OSError "Connection refused")))
  ∧ connect_tcp_exit state_refused_alone
    ≠ Some (inl (OSError "Connection refused")).
Proof.
  split_and!; try reflexivity. discriminate.
Qed.

(** C2, amended: when the task group is left without a winner,
    [connect_tcp] raises [OSError('All connection attempts failed')]; its
    cause is the recorded [OSError] itself when exactly one was recorded,
    and an [ExceptionGroup] of all the recorded errors when two or more
    were. *)
Theorem failure_chains_recorded_errors addrs delay evs s :
  run (init addrs delay) evs = Some s →
  task_group_exit s = Some None → stream s = None →
  ∃ cause,
    connect_tcp_exit s
      = Some (inl (RaiseFrom (OSError "All connection attempts failed") cause))
    ∧ (∀ e, oserrors s = [e] → cause = e ∧ is_OSError e = true)
    ∧ ((2 <= length (oserrors s))%nat →
         cause = ExceptionGroup (oserrors s)
         ∧ Forall (λ e, is_OSError e = true) (oserrors s)).
Proof.
  intros Hrun Hexit Hnone.
  pose proof (oserrors_are_OSErrors _ _ _ _ Hrun) as Hos.
  unfold connect_tcp_exit, epilogue. rewrite Hexit, Hnone.
  eexists. split; [reflexivity|]. split.
  - intros e He. rewrite He in *. split; [done|]. by inversion Hos.
  - intros Hlen. split; [|done].
    destruct (oserrors s) as [|e1 [|e2 l]]; simpl in Hlen; try lia; done.
Qed.

Lemma failure_chains_recorded_errors_witness :
  run (init [c4] (1 # 4)) refused_alone = Some state_refused_alone
  ∧ ∃ cause,
    connect_tcp_exit state_refused_alone
      = Some (inl (RaiseFrom (OSError "All connection attempts failed") cause))
    ∧ (∀ e, oserrors state_refused_alone = [e] → cause = e ∧ is_OSError e = true)
    ∧ ((2 <= length (oserrors state_refused_alone))%nat →
         cause = ExceptionGroup (oserrors state_refused_alone)
         ∧ Forall (λ e, is_OSError e = true) (oserrors state_refused_alone)).
Proof.
  split; [reflexivity|].
  apply (failure_chains_recorded_errors [c4] (1 # 4) refused_alone);
    reflexivity.
Defined.

(** *** No candidates *)

(** C4, as stated, fails: without candidates [connect_tcp] raises the
    same [OSError('All connection attempts failed')] as after a race in
    which every attempt failed, not a condition of its own. *)
Lemma no_candidates_is_the_common_failure :
  connect_tcp_exit (init [] default_happy_eyeballs_delay)
    = Some (inl (RaiseFrom (OSError "All connection attempts failed")
                           (ExceptionGroup [])))
  ∧ attempts state_refused_alone ≠ []
  ∧ ∃ e e', connect_tcp_exit (init [] default_happy_eyeballs_delay) = Some (inl e)
      ∧ connect_tcp_exit state_refused_alone = Some (inl e')
      ∧ exc_head e = exc_head e'.
Proof.
  split; [reflexivity|]. split; [discriminate|].
  eexists _, _. split_and!; reflexivity.
Qed.

Lemma nothing_to_try_step s ev s' :
  nothing_to_try s → step s ev = Some s' → nothing_to_try s'.
Proof.
  intros (Ha & Hp & Hl & Hs & Ho & Hc) Hstep. unfold nothing_to_try.
  destruct ev; step_cases Hstep; simpl; try done; try congruence.
  all: rewrite Ha in *; done.
Qed.

(** C4, amended: with an empty candidate list no attempt is ever spawned
    (only the clock can move), and [connect_tcp] raises
    [OSError('All connection attempts failed')] with an empty
    [ExceptionGroup] as its cause. *)
Theorem no_candidates_no_attempts delay evs s :
  run (init [] delay) evs = Some s →
  attempts s = []
  ∧ (∀ ev s', step s ev = Some s' → ∃ dt, ev = Tick dt)
  ∧ connect_tcp_exit s
    = Some (inl (RaiseFrom (OSError "All connection attempts failed")
                           (ExceptionGroup []))).
Proof.
  intros Hrun.
  assert (nothing_to_try s) as (Ha & Hp & Hl & Hs & Ho & Hc).
  { revert Hrun. apply (run_invariant nothing_to_try); [done|].
    apply nothing_to_try_step. }
  split_and!.
  - done.
  - intros ev s' Hstep. destruct ev; step_cases Hstep; eauto; try congruence.
    all: rewrite Ha in *; done.
  - unfold connect_tcp_exit, task_group_exit, joined, child_failures, epilogue.
    by rewrite Hl, Hp, Ha, Hs, Ho.
Qed.

Lemma no_candidates_no_attempts_witness :
  ∃ s, run (init [] (1 # 4)) [Tick 1] = Some s ∧ attempts s = []
    ∧ connect_tcp_exit s
      = Some (inl (RaiseFrom (OSError "All connection attempts failed")
                             (ExceptionGroup []))).
Proof.
  eexists. split; [reflexivity|].
  destruct (no_candidates_no_attempts (1 # 4) [Tick 1] _ eq_refl) as (H1 & _ & H2).
  split; [exact H1 | exact H2].
Defined.

(** *** The order of the attempts *)

(** C3 at a resolver answer that lists the IPv4 address first:
    [connect_tcp] does not sort, the IPv4 attempt is spawned first, where
    the order of the specification puts the IPv6 candidate first. *)
Theorem attempts_follow_resolver_order :
  ∃ s, run (init [c4; c6] default_happy_eyeballs_delay) both_connecting = Some s
    ∧ spawned_candidates s = [candidate c4; candidate c6]
    ∧ spec_ipv6_first (map candidate [c4; c6]) = [candidate c6; candidate c4]
    ∧ spawned_candidates s ≠ spec_ipv6_first (map candidate [c4; c6]).
Proof.
  eexists. split; [reflexivity|]. split_and!; try reflexivity. discriminate.
Qed.

(** *** The sockets of the losers *)

Lemma raised_attempt_closed addrs delay evs s :
  run (init addrs delay) evs = Some s →
  ∀ i a e, attempts s !! i = Some a → at_task a = Raised e →
           at_socket a = SockClosed.
Proof.
  apply (run_invariant (λ s, ∀ i a e, attempts s !! i = Some a →
                               at_task a = Raised e → at_socket a = SockClosed)).
  - intros i a e Hi. done.
  - intros s0 ev s1 HP Hstep i a e.
    destruct ev; step_cases Hstep; simpl; eauto.
    all: try (intros Hi; apply lookup_app_Some in Hi as [Hi|[_ Hi]]; [eauto|];
              apply list_lookup_singleton_Some in Hi as [_ <-]; done).
    all: destruct (decide (i0 = i)) as [->|Hne];
      [ rewrite list_lookup_insert_eq by (by eapply lookup_lt_Some);
        intros ??; by simplify_eq/=
      | rewrite list_lookup_insert_ne by done; eauto ].
Qed.

Lemma failed_attempt_closes_socket s i e s' :
  resolve i (Raise e) s = Some s' →
  ∃ a', attempts s' !! i = Some a'
        ∧ at_socket a' = SockClosed ∧ at_event a' = true.
Proof.
  intros Hstep. unfold resolve, set_attempt in Hstep.
  repeat case_match; simplify_eq; simpl;
    (eexists; split;
     [apply list_lookup_insert_eq; by eapply lookup_lt_Some | done]).
Qed.

(** C6 at two candidates whose connects both succeed: the second attempt
    finds the winner slot taken, returns, and its socket is still open
    when [connect_tcp] returns the stream of the first. *)
Theorem late_success_leaves_socket_open :
  ∃ s, run (init [c6; c4] default_happy_eyeballs_delay) both_succeed = Some s
    ∧ connect_tcp_exit s
      = Some (inr {| stream_socket := 0; stream_peer := ("2001:db8::1", 80%Z) |})
    ∧ ∃ a, attempts s !! 1%nat = Some a
        ∧ at_task a = Returned ∧ at_socket a = SockOpen.
Proof.
  eexists. split; [reflexivity|]. split; [reflexivity|].
  eexists. split_and!; reflexivity.
Qed.

End ConnectTcpFacts.

Module SocketsFacts.
Import ConnectTcp Sockets EffFacts.

Local Open Scope list_scope.

(** *** Computations that leave the descriptors alone *)

Lemma invoke_keeps_sockets E c : keeps sockets (invoke E c).
Proof.
  intros w r w' H. unfold invoke in H.
  destruct (raises E c); by injection H as _ <-.
Qed.

#[local] Hint Resolve invoke_keeps_sockets : keeps.

Ltac solve_keeps := repeat (intros; first
  [ progress eauto with keeps
  | apply keeps_bind
  | match goal with |- keeps sockets (match ?x with _ => _ end) => destruct x end
  | match goal with |- keeps sockets (if ?x then _ else _) => destruct x end ]).

(** [try: m] with [except BaseException: raw_socket.close(); raise]: when
    [m] raises, the descriptor is closed. *)
Lemma try_close_on_failure {A} (m : M A) fd w e w' :
  keeps sockets m →
  try_except_reraise m (close fd) w = (inl e, w') →
  sockets w' = <[fd := SockClosed]> (sockets w).
Proof.
  intros Hm H. unfold try_except_reraise, close in H.
  destruct (m w) as [[e1|x] w1] eqn:Hmw; [|done].
  injection H as _ <-. simpl. by rewrite (Hm _ _ _ Hmw).
Qed.

Lemma invoke_returns E c w :
  raises E c = None →
  invoke E c w = (inr tt, {| sockets := sockets w; calls := calls w ++ [c] |}).
Proof. intros H. unfold invoke. by rewrite H. Qed.

Lemma close_new_descriptor (l : list socket_state) :
  <[length l := SockClosed]> (l ++ [SockOpen]) = l ++ [SockClosed].
Proof.
  rewrite insert_app_r_alt, Nat.sub_diag by done. done.
Qed.

Lemma socket_socket_returns E family type w :
  raises E (c_socket family type) = None →
  socket_socket E family type w
  = (inr (length (sockets w)),
     {| sockets := sockets w ++ [SockOpen];
        calls := calls w ++ [c_socket family type] |}).
Proof.
  intros H. unfold socket_socket. by rewrite bind_unfold, invoke_returns.
Qed.

Lemma connect_unix_failure_closes E path w e w' :
  raises E (c_socket AF_UNIX SOCK_STREAM) = None →
  raises E (c_setblocking (length (sockets w)) false) = None →
  connect_unix E path w = (inl e, w') →
  sockets w' = sockets w ++ [SockClosed].
Proof.
  intros Hs Hb. unfold connect_unix.
  rewrite bind_unfold, socket_socket_returns by done.
  rewrite bind_unfold, invoke_returns by done.
  intros H. apply try_close_on_failure in H; [|solve_keeps]. simpl in H.
  by rewrite close_new_descriptor in H.
Qed.

Lemma when_invoke_returns E b c w :
  (b = true → raises E c = None) →
  ∃ cs, when b (invoke E c) w = (inr tt, {| sockets := sockets w; calls := cs |}).
Proof.
  intros H. destruct b; simpl.
  - rewrite invoke_returns by auto. eauto.
  - exists (calls w). by destruct w.
Qed.

Lemma create_tcp_server_failure_closes E port interface w e w' :
  let '(_, family, v6only) := bind_address E interface in
  let fd := length (sockets w) in
  raises E (c_get_bind_address interface) = None →
  raises E (c_socket family SOCK_STREAM) = None →
  raises E (c_setblocking fd false) = None →
  raises E (c_setsockopt fd IPPROTO_TCP TCP_NODELAY 1) = None →
  (family = AF_INET6 →
   raises E (c_setsockopt fd IPPROTO_IPV6 IPV6_V6ONLY (Z.b2z v6only)) = None) →
  create_tcp_server E port interface w = (inl e, w') →
  sockets w' = sockets w ++ [SockClosed].
Proof.
  destruct (bind_address E interface) as [[itf family] v6only] eqn:Hba.
  intros fd Hg Hs Hb Hn H6. unfold create_tcp_server, get_bind_address.
  rewrite !bind_unfold, invoke_returns by done. simpl. rewrite Hba.
  rewrite bind_unfold, socket_socket_returns by done.
  rewrite bind_unfold, invoke_returns by done.
  rewrite bind_unfold, invoke_returns by done.
  rewrite bind_unfold.
  match goal with |- context [when ?b (invoke E ?c) ?w0] =>
    destruct (when_invoke_returns E b c w0) as [cs ->] end.
  { intros Hf. apply H6. by apply Z.eqb_eq. }
  intros H. apply try_close_on_failure in H; [|solve_keeps]. simpl in H.
  by rewrite close_new_descriptor in H.
Qed.

Lemma create_udp_socket_failure_closes E interface port target_host target_port w e w' :
  (∀ fd, raises E (c_setblocking fd false) = None) →
  create_udp_socket E interface port target_host target_port w = (inl e, w') →
  sockets w' = sockets w ∨ sockets w' = sockets w ++ [SockClosed].
Proof.
  intros Hb. unfold create_udp_socket.
  rewrite bind_unfold.
  match goal with |- context [match ?m w with _ => _ end] =>
    assert (keeps sockets m) as Hk1 by (unfold get_bind_address; solve_keeps);
    destruct (m w) as [[e1|[itf family]] w1] eqn:Hm1 end.
  { intros H. injection H as _ <-. left. eauto. }
  apply Hk1 in Hm1. rewrite bind_unfold.
  match goal with |- context [match ?m w1 with _ => _ end] =>
    assert (keeps sockets m) as Hk2 by (unfold getaddrinfo; solve_keeps);
    destruct (m w1) as [[e2|[[family' th] tp]] w2] eqn:Hm2 end.
  { intros H. injection H as _ <-. left. rewrite <- Hm1. eauto. }
  apply Hk2 in Hm2. rewrite bind_unfold. unfold socket_socket at 1.
  rewrite bind_unfold. unfold invoke at 1.
  destruct (raises E (c_socket family' SOCK_DGRAM)).
  { intros H. injection H as _ <-. left. simpl. congruence. }
  unfold new_descriptor. rewrite bind_unfold, invoke_returns by done.
  intros H. apply try_close_on_failure in H; [|solve_keeps]. simpl in H.
  right. rewrite H, close_new_descriptor. congruence.
Qed.

(** C7 at a kernel that refuses the [IPV6_V6ONLY] option:
    [create_tcp_server] sets the option before its [try], the exception
    leaves the function and the socket it created is never closed. *)
Theorem option_setup_failure_leaks_socket :
  ∃ w, create_tcp_server v6only_refused 8080 None empty_world
       = (inl (OSError "Invalid argument"), w)
    ∧ sockets w = [SockOpen]
    ∧ (c_close 0 ∉ calls w)
    ∧ no_open_socket w = false.
Proof.
  eexists. split; [vm_compute; reflexivity|]. split_and!; try reflexivity.
  intros H. repeat (apply elem_of_cons in H as [H|H]; [discriminate|]).
  by apply elem_of_nil in H.
Qed.

End SocketsFacts.

Module EventLoopFacts.
Import EventLoop.

Local Open Scope list_scope.

Section Facts.
Context {func args kwargs retval : Type}.
Variable import_module : string → exn + @backend_module func args kwargs retval.

Lemma set_cvar_restores v1 v2 st :
  set_cvar (current_async_library_cvar st) (set_cvar v2 (set_cvar v1 st)) = st.
Proof. by destruct st. Qed.

Lemma not_running_cvar_unset st :
  current_async_library st = None → current_async_library_cvar st = None.
Proof.
  unfold current_async_library. by repeat case_match.
Qed.

(** C8: [run] raises [RuntimeError] when [sniffio] finds an async library
    running in the calling thread, and then no backend is started; it
    raises [LookupError] (from the [ImportError]) when the backend
    module cannot be imported; otherwise it hands on what the backend's
    [run] gives for the coroutine function; on each of these paths
    [sniffio]'s state, the context variable included, is afterwards what
    it was before the call. *)
Theorem run_outcomes f a backend opts w :
  let r := run import_module f a backend opts w in
  sniff r.2 = sniff w
  ∧ (∀ name, current_async_library (sniff w) = Some name →
       r.1 = inl (RuntimeError ("Already running " ++ name ++ " in this thread"))
       ∧ started r.2 = started w)
  ∧ (current_async_library (sniff w) = None →
     ∀ exc, import_module ("anyio._backends._" ++ backend) = inl exc →
            is_ImportError exc = true →
       r.1 = inl (RaiseFrom (LookupError ("No such backend: " ++ backend)) exc)
       ∧ started r.2 = started w)
  ∧ (current_async_library (sniff w) = None →
     ∀ asynclib, import_module ("anyio._backends._" ++ backend) = inr asynclib →
       r.1 = (backend_run asynclib f a (default [] opts) (Some backend)).1
       ∧ started r.2 = started w ++ [backend]).
Proof.
  unfold run. destruct (current_async_library (sniff w)) as [name|] eqn:Hcur.
  - simpl. split_and!; try done. intros ? [= <-]. done.
  - apply not_running_cvar_unset in Hcur as Hcv. rewrite Hcv.
    destruct (import_module _) as [exc|asynclib] eqn:Himp.
    + destruct (is_ImportError exc) eqn:Hie; simpl; split_and!; try done.
      * intros _ ? [= <-] _. done.
      * intros _ ? [= <-]. congruence.
    + simpl. destruct (backend_run _ _ _ _ _) as [result v] eqn:Hrun. simpl.
      split_and!; try done.
      * rewrite <- Hcv at 1. apply set_cvar_restores.
      * intros _ ? [= <-]. by rewrite Hrun.
Qed.

End Facts.

Lemma run_examples :
  run only_asyncio tt [] "asyncio" None idle_thread
    = (inr 42%Z, {| sniff := sniff idle_thread; started := ["asyncio"] |})
  ∧ run only_asyncio tt [] "twisted" None idle_thread
    = (inl (RaiseFrom (LookupError "No such backend: twisted")
              (ImportError "No module named 'anyio._backends._twisted'")),
       idle_thread)
  ∧ run only_asyncio tt [] "asyncio" None trio_thread
    = (inl (RuntimeError "Already running trio in this thread"), trio_thread).
Proof. split_and!; reflexivity. Qed.

End EventLoopFacts.

Module TimeoutsFacts.
Import EventLoop Worker Timeouts.

Local Open Scope list_scope.

(** C9: [fail_after(None)] and [move_on_after(None)] do the same: they
    look the backend up and, when it is found, return a plain cancel scope
    that carries the given shield flag and no deadline; a lookup that
    raises ends the call with its exception.  In the scope returned no
    deadline fires for the guarded block, which ends only by itself: it is
    neither left silently nor with [TimeoutError]. *)
Theorem no_delay_no_deadline importable sh w :
  move_on_after importable None sh w = fail_after importable None sh w
  ∧ match _get_asynclib importable None w with
    | (inr asynclib, w') =>
        fail_after importable None sh w
        = (inr (plain_scope {| deadline := None; cancel_called := false;
                               shield := sh |}), w')
    | (inl e, w') => fail_after importable None sh w = (inl e, w')
    end
  ∧ ∀ cm w', fail_after importable None sh w = (inr cm, w') →
      ∀ t duration,
        deadline (enter cm t) = None
        ∧ shield (enter cm t) = sh
        ∧ cancel_called (enter cm t) = false
        ∧ deadline_fires (enter cm t) t duration = false
        ∧ guarded_block cm t duration = (λ _, Finished) <$> duration
        ∧ guarded_block cm t duration ≠ Some MovedOn
        ∧ guarded_block cm t duration ≠ Some (Timed_out TimeoutError).
Proof.
  split; [done|]. unfold fail_after, via_asynclib.
  destruct (_get_asynclib importable None w) as [[e|asynclib] w0]; (split; [done|]).
  - intros cm w' [=].
  - intros cm w' [= <- <-] t duration.
    split_and!; try done; by destruct duration.
Qed.

(** Inside a running library the scope is returned, and a block of any
    length runs to its end. *)
Lemma no_delay_no_deadline_witness :
  _get_asynclib curio_importable None inside_trio = (inr trio, inside_trio)
  ∧ fail_after curio_importable None true inside_trio
    = (inr (plain_scope {| deadline := None; cancel_called := false;
                           shield := true |}), inside_trio)
  ∧ move_on_after curio_importable None true inside_trio
    = (inr (plain_scope {| deadline := None; cancel_called := false;
                           shield := true |}), inside_trio)
  ∧ ∀ t duration,
      guarded_block
        (plain_scope {| deadline := None; cancel_called := false; shield := true |})
        t (Some duration) = Some Finished.
Proof.
  assert (_get_asynclib curio_importable None inside_trio = (inr trio, inside_trio))
    as Hfound by reflexivity.
  destruct (no_delay_no_deadline curio_importable true inside_trio)
    as (Hsame & Hscope & Hblock).
  rewrite Hfound in Hscope.
  split; [exact Hfound|]. split; [exact Hscope|].
  split; [rewrite Hsame; exact Hscope|].
  intros t duration.
  destruct (Hblock _ _ Hscope t (Some duration)) as (_ & _ & _ & _ & H & _).
  exact H.
Defined.

(** Outside, the lookup raises and no scope is made. *)
Lemma fail_after_none_outside_a_loop :
  fail_after curio_importable None true idle_thread
  = (inl AsyncLibraryNotFoundError, idle_thread).
Proof. reflexivity. Qed.

(** With a delay the deadline is kept: the contrast. *)
Lemma fail_after_delay_times_out :
  ∃ cm, fail_after curio_importable (Some 1%Q) false inside_trio
        = (inr cm, inside_trio)
    ∧ guarded_block cm 0%Q (Some 2%Q) = Some (Timed_out TimeoutError).
Proof. eexists. split; reflexivity. Qed.

End TimeoutsFacts.

Module SubprocessFacts.
Import Subprocess EffFacts.

Local Open Scope list_scope.

Lemma invoke_keeps_killed E c : keeps killed (invoke E c).
Proof.
  intros w r w' H. unfold invoke in H.
  destruct (raises E c); by injection H as _ <-.
Qed.

Lemma invoke_keeps_contents E c : keeps stream_contents (invoke E c).
Proof.
  intros w r w' H. unfold invoke in H.
  destruct (raises E c); by injection H as _ <-.
Qed.

Lemma drain_keeps_killed E chunks index :
  keeps killed (drain_stream E chunks index).
Proof.
  unfold drain_stream. apply keeps_bind; [apply invoke_keeps_killed|].
  intros _. apply keeps_bind.
  - intros w r w' H. by injection H as _ <-.
  - intros l w r w' H. by injection H as _ <-.
Qed.

Lemma drain_writes E chunks index w w' :
  drain_stream E chunks index w = (inr tt, w') →
  stream_contents w' = <[index := Some (bytes_join chunks)]> (stream_contents w).
Proof.
  unfold drain_stream. intros H.
  apply bind_returns in H as ([] & w1 & H1 & H).
  apply invoke_keeps_contents in H1 as <-.
  rewrite bind_unfold in H. by injection H as <-.
Qed.

(** The block does not touch the [killed] flag. *)
Lemma block_keeps_killed E p input : keeps killed (streaming_block E p input).
Proof.
  unfold streaming_block.
  repeat (apply keeps_bind; [|intros _]).
  - destruct (p_stdout p); [apply drain_keeps_killed|apply keeps_ret].
  - destruct (p_stderr p); [apply drain_keeps_killed|apply keeps_ret].
  - apply keeps_when.
    apply keeps_bind; [|intros _]; apply invoke_keeps_killed.
  - apply invoke_keeps_killed.
Qed.

(** What a block that ends without exception leaves in
    [stream_contents]. *)
Lemma block_drains E p input w w' :
  stream_contents w = [None; None] →
  streaming_block E p input w = (inr tt, w') →
  stream_contents w' = [bytes_join <$> p_stdout p; bytes_join <$> p_stderr p].
Proof.
  intros Hc. unfold streaming_block. intros H.
  apply bind_returns in H as ([] & w1 & H1 & H).
  apply bind_returns in H as ([] & w2 & H2 & H).
  apply bind_returns in H as ([] & w3 & H3 & H).
  apply invoke_keeps_contents in H as ->.
  assert (stream_contents w3 = stream_contents w2) as ->.
  { revert H3. apply keeps_when.
    apply keeps_bind; [|intros _]; apply invoke_keeps_contents. }
  assert (stream_contents w1 = [bytes_join <$> p_stdout p; None]) as Hw1.
  { destruct (p_stdout p) as [chunks|].
    - apply drain_writes in H1. by rewrite H1, Hc.
    - injection H1 as <-. by rewrite Hc. }
  destruct (p_stderr p) as [chunks|].
  - apply drain_writes in H2. by rewrite H2, Hw1.
  - injection H2 as <-. by rewrite Hw1.
Qed.



Lemma cancelled_wait_kills :
  ∃ w1, run_process cancelled_env (Shell "sleep 60") None PIPE PIPE true empty_world
        = (inl CancelledError, w1)
    ∧ killed w1 = true ∧ last (calls w1) = Some c_kill.
Proof.
  eexists. split; [vm_compute; reflexivity|]. split; reflexivity.
Qed.
End SubprocessFacts.

Module RaceFacts.
Import ConnectTcp ConnectTcpFacts RaceAccounting.

Local Open Scope Q_scope.

Lemma sum_list_insert {A} (f : A → nat) (l : list A) i x y :
  l !! i = Some x →
  (sum_list (f <$> <[i := y]> l) + f x = sum_list (f <$> l) + f y)%nat.
Proof.
  revert i. induction l as [|z l IH]; intros [|i] Hi; simplify_eq/=.
  - lia.
  - specialize (IH _ Hi). change (list_fmap A nat f) with (fmap f) in *. lia.
Qed.

Lemma coherent_init addrs delay : coherent (init addrs delay).
Proof.
  split; simpl; try done. split; [done|].
  intros [[? [=]]|(i & a & e & Hi & _)]. done.
Qed.

Lemma child_failed_update s s' i a a' :
  attempts s !! i = Some a →
  attempts s' = <[i := a']> (attempts s) →
  (∀ e, at_task a ≠ Raised e) →
  child_failed s' ↔
    child_failed s ∨ ∃ e, at_task a' = Raised e ∧ is_cancellation e = false.
Proof.
  intros Hi Hatt Hnr.
  assert (i < length (attempts s))%nat as Hlt by (by eapply lookup_lt_Some).
  unfold child_failed. rewrite Hatt. split.
  - intros (j & b & e & Hj & Ht & He).
    destruct (decide (i = j)) as [->|Hne].
    + rewrite list_lookup_insert_eq in Hj by done. simplify_eq. eauto.
    + rewrite list_lookup_insert_ne in Hj by done. left. eauto 6.
  - intros [(j & b & e & Hj & Ht & He)|(e & Ht & He)].
    + exists j, b, e. split; [|done]. rewrite list_lookup_insert_ne; [done|].
      intros ->. simplify_eq. by eapply Hnr.
    + exists i, a', e. by rewrite list_lookup_insert_eq.
Qed.

Lemma follows_mono s s' a :
  (is_Some (stream s) → is_Some (stream s')) →
  socket_follows_task s a → socket_follows_task s' a.
Proof. unfold socket_follows_task. destruct (at_task a); auto. Qed.

(** An attempt moves on; the loop stays where it is. *)
Lemma coherent_update s s' i a a' :
  coherent s →
  attempts s !! i = Some a →
  attempts s' = <[i := a']> (attempts s) →
  launcher s' = launcher s →
  (is_Some (stream s) → is_Some (stream s')) →
  (∀ e, at_task a ≠ Raised e) →
  (cancel_called s' = true ↔
     is_Some (stream s') ∨ child_failed s
     ∨ ∃ e, at_task a' = Raised e ∧ is_cancellation e = false) →
  (cancel_called s = true → cancel_called s' = true) →
  socket_follows_task s' a' →
  (length (oserrors s') + recorded a = length (oserrors s) + recorded a')%nat →
  coherent s'.
Proof.
  intros [Hs Hc Ha He] Hi Hatt Hl Hmono Hnr Hc' Hcm Ha' Hlen.
  assert (i < length (attempts s))%nat as Hlt by (by eapply lookup_lt_Some).
  split.
  - intros j b Hj. rewrite Hatt in Hj.
    destruct (decide (i = j)) as [->|Hne].
    + rewrite list_lookup_insert_eq in Hj by done. by simplify_eq.
    + rewrite list_lookup_insert_ne in Hj by done.
      eapply follows_mono; eauto.
  - by rewrite Hc', (child_failed_update _ _ _ _ _ Hi Hatt Hnr).
  - rewrite Hl. auto.
  - rewrite Hatt. pose proof (sum_list_insert recorded _ _ _ a' Hi). lia.
Qed.

Ltac count_errors :=
  rewrite ?length_app; unfold recorded; simpl;
  repeat match goal with
         | H : at_task _ = _ |- _ => rewrite H
         | H : at_socket _ = _ |- _ => rewrite H
         end; simpl; lia.

Lemma child_failed_spawn s s' a :
  attempts s' = (attempts s ++ [a])%list → at_task a = Spawned →
  child_failed s' ↔ child_failed s.
Proof.
  intros Hatt Ht. unfold child_failed. rewrite Hatt. split.
  - intros (j & b & e & Hj & Hb & He).
    apply lookup_app_Some in Hj as [Hj|[_ Hj]]; [eauto 6|].
    apply list_lookup_singleton_Some in Hj as [_ <-]. congruence.
  - intros (j & b & e & Hj & Hb & He). exists j, b, e.
    split; [|done]. by apply lookup_app_l_Some.
Qed.

Ltac no_new_failure :=
  split; [intros [?|?]; auto | intros [?|[?|(? & ? & _)]]; [auto..|done]].

Lemma coherent_step s ev s' :
  coherent s → step s ev = Some s' → coherent s'.
Proof.
  intros Hcoh Hstep. pose proof Hcoh as [Hs Hc Ha He].
  assert (∀ (a : attempt) t, at_task a = t → (∀ e, t ≠ Raised e) →
            ∀ e, at_task a ≠ Raised e) as Hnr by (intros; congruence).
  destruct ev; step_cases Hstep.
  - (* Spawn *)
    split; simpl; try done.
    + intros j b Hj. apply lookup_app_Some in Hj as [Hj|[_ Hj]].
      { eapply follows_mono; [|eauto]. done. }
      apply list_lookup_singleton_Some in Hj as [_ <-]. by unfold socket_follows_task.
    + rewrite Hc.
      match goal with |- _ ↔ _ ∨ child_failed ?s' =>
        by rewrite (child_failed_spawn s s' _ eq_refl eq_refl) end.
    + rewrite fmap_app, sum_list_with_app. simpl. 
      change (sum_list_with id) with sum_list. lia.
  - (* Start, [socket.socket] raises *)
    eapply coherent_update; eauto; simpl; try done.
    + rewrite Hc. no_new_failure.
    + count_errors.
  - (* Start *)
    eapply coherent_update; eauto; simpl; try done.
    + rewrite Hc. no_new_failure.
    + count_errors.
  - (* Resolve: connected *)
    match goal with H : attempts s !! _ = Some ?a, H' : at_task ?a = Connecting |- _ =>
      pose proof (Hs _ _ H) as Hopen; unfold socket_follows_task in Hopen;
      rewrite H' in Hopen end.
    eapply coherent_update; eauto; simpl; try done.
    + rewrite Hc. no_new_failure.
    + unfold socket_follows_task. simpl. eauto.
    + count_errors.
  - (* Resolve: connected *)
    match goal with H : attempts s !! _ = Some ?a, H' : at_task ?a = Connecting |- _ =>
      pose proof (Hs _ _ H) as Hopen; unfold socket_follows_task in Hopen;
      rewrite H' in Hopen end.
    eapply coherent_update; eauto; simpl; try done.
    + split; eauto.
    + unfold socket_follows_task. simpl. eauto.
    + count_errors.
  - (* Resolve: [OSError] *)
    eapply coherent_update; eauto; simpl; try done.
    + rewrite Hc. no_new_failure.
    + count_errors.
  - (* Resolve: another exception *)
    eapply coherent_update; eauto; simpl; try done.
    + rewrite orb_true_iff, negb_true_iff, Hc. split.
      * intros [[?|?]|?]; eauto.
      * intros [?|[?|(? & [= <-] & ?)]]; auto.
    + intros ->. done.
    + count_errors.
  - (* Wake *) split; simpl; done.
  - (* Timeout *) split; simpl; done.
  - (* Abort *) split; simpl; done.
  - split; simpl; done.
  - (* Tick *) split; simpl; done.
Qed.

Lemma coherent_run addrs delay evs s :
  run (init addrs delay) evs = Some s → coherent s.
Proof.
  apply (run_invariant coherent); [apply coherent_init|apply coherent_step].
Qed.

Lemma run_snoc s0 evs ev s' :
  run s0 (evs ++ [ev]) = Some s' ↔
  ∃ s, run s0 evs = Some s ∧ step s ev = Some s'.
Proof.
  revert s0. induction evs as [|ev0 evs IH]; intros s0; simpl.
  - split.
    + intros H. exists s0. split; [done|]. by destruct (step s0 ev).
    + intros (s & [= <-] & Hs). by rewrite Hs.
  - destruct (step s0 ev0) as [s1|]; [apply IH|].
    split; [done|]. by intros (s & ? & _).
Qed.

(** As [run_invariant], with the state before the step known to be
    reached. *)
Lemma run_invariant_reached (P : race → Prop) s0 :
  P s0 →
  (∀ evs s ev s', run s0 evs = Some s → P s → step s ev = Some s' → P s') →
  ∀ evs s, run s0 evs = Some s → P s.
Proof.
  intros H0 Hstep evs. induction evs as [|ev evs IH] using rev_ind; intros s Hrun.
  - simpl in Hrun. by simplify_eq.
  - apply run_snoc in Hrun as (s1 & Hrun & Hs). eauto.
Qed.

Lemma spawn_order addrs delay evs s :
  run (init addrs delay) evs = Some s →
  (spawned_candidates s ++ map candidate (pending s))%list = map candidate addrs.
Proof.
  apply (run_invariant
           (λ s, (spawned_candidates s ++ map candidate (pending s))%list
                 = map candidate addrs)); [done|].
  intros s0 ev s1 HP Hstep. rewrite <- HP. unfold spawned_candidates.
  destruct ev; step_cases Hstep; simpl; try done.
  all: try (rewrite map_app; simpl; by rewrite <- app_assoc).
  all: f_equal; rewrite list_fmap_insert; simpl; apply list_insert_id;
    rewrite list_lookup_fmap;
    by match goal with H : _ !! _ = Some _ |- _ => rewrite H end.
Qed.

Lemma joined_concluded s i a :
  joined s = true → attempts s !! i = Some a → concluded a = true.
Proof.
  unfold joined. intros [_ H]%andb_true_iff Hi.
  rewrite forallb_forall in H. apply H.
  apply list_elem_of_In. by eapply list_elem_of_lookup_2.
Qed.

(** X1: when the race of [connect_tcp] has ended (the loop is over, every
    attempt has finished) and no attempt claimed the winner slot, no
    socket of any attempt is open: each was never created or is closed. *)
Theorem lost_race_leaves_no_socket_open addrs delay evs s :
  run (init addrs delay) evs = Some s →
  joined s = true → stream s = None →
  ∀ i a, attempts s !! i = Some a →
         at_socket a = NoSocket ∨ at_socket a = SockClosed.
Proof.
  intros Hrun Hj Hnone i a Hi.
  pose proof (coherent_run _ _ _ _ Hrun) as [Hs _ _ _].
  specialize (Hs _ _ Hi). pose proof (joined_concluded _ _ _ Hj Hi) as Hc.
  unfold socket_follows_task in Hs. unfold concluded in Hc.
  destruct (at_task a); try done; [|by right].
  destruct (at_socket a); auto.
  destruct Hs as [w Hw]; [done|]. congruence.
Qed.

Lemma raised_is_no_OSError addrs delay evs s :
  run (init addrs delay) evs = Some s →
  ∀ i a e, attempts s !! i = Some a → at_task a = Raised e →
           is_OSError e = false.
Proof.
  apply (run_invariant (λ s, ∀ i a e, attempts s !! i = Some a →
                               at_task a = Raised e → is_OSError e = false)).
  - intros i a e Hi. done.
  - intros s0 ev s1 HP Hstep i a e.
    destruct ev; step_cases Hstep; simpl; eauto.
    all: try (intros Hi; apply lookup_app_Some in Hi as [Hi|[_ Hi]]; [eauto|];
              apply list_lookup_singleton_Some in Hi as [_ <-]; done).
    all: destruct (decide (i0 = i)) as [->|Hne];
      [ rewrite list_lookup_insert_eq by (by eapply lookup_lt_Some);
        intros ??; by simplify_eq/=
      | rewrite list_lookup_insert_ne by done; eauto ].
Qed.

(** A clean exit of the group has seen no error of a child. *)
Lemma clean_exit_no_error s e :
  task_group_exit s = Some None → e ∈ child_failures s →
  is_cancellation e = false → False.
Proof.
  unfold task_group_exit. intros Hexit Hin He.
  destruct (joined s); [|done].
  assert (e ∈ filter (λ e, is_cancellation e = false) (child_failures s)) as Hf
    by (by apply list_elem_of_filter).
  destruct (filter (λ e, is_cancellation e = false) (child_failures s))
    as [|e1 [|e2 l1]]; try done.
  by apply elem_of_nil in Hf.
Qed.

Lemma clean_exit_no_failures s :
  task_group_exit s = Some None → stream s = None →
  cancel_called s = false → child_failures s = [].
Proof.
  unfold task_group_exit. intros Hexit Hnone Hcc.
  destruct (joined s); [|done]. rewrite Hcc in Hexit.
  destruct (filter (λ e, is_cancellation e = false) (child_failures s))
    as [|e1 [|e2 l1]] eqn:Herr; try done.
  destruct (filter (λ e, is_cancellation e = true) (child_failures s))
    as [|e1 l1] eqn:Hcan; try done.
  destruct (child_failures s) as [|e l] eqn:Hcf; [done|]. exfalso.
  assert (e ∈ e :: l) as Hin by left.
  destruct (is_cancellation e) eqn:He.
  - assert (e ∈ filter (λ e, is_cancellation e = true) (e :: l)) as Hf
      by (by apply list_elem_of_filter).
    rewrite Hcan in Hf. by apply elem_of_nil in Hf.
  - assert (e ∈ filter (λ e, is_cancellation e = false) (e :: l)) as Hf
      by (by apply list_elem_of_filter).
    rewrite Herr in Hf. by apply elem_of_nil in Hf.
Qed.

(** X3: in every reachable state of the race, the scope of the task
    group is cancelled exactly when the winner slot is filled or an attempt
    has ended with an exception that is neither an [OSError] nor a
    cancellation; the loop over the candidates is cut short only then (a
    cancellation of the caller is not part of the model). *)
Theorem group_cancelled_by_winner_or_failure addrs delay evs s :
  run (init addrs delay) evs = Some s →
  (cancel_called s = true ↔ is_Some (stream s) ∨ child_failed s)
  ∧ (launcher s = Aborted → is_Some (stream s) ∨ child_failed s)
  ∧ (∀ i a e, attempts s !! i = Some a → at_task a = Raised e →
       is_OSError e = false ∧ (is_cancellation e = false → cancel_called s = true))
  ∧ (cancel_called s = true → launcher s ≠ Aborted →
       step s Abort = Some (set_launcher Aborted s)).
Proof.
  intros Hrun. pose proof (coherent_run _ _ _ _ Hrun) as [_ Hc Ha _].
  split_and!; [done| | |].
  - intros Hl. apply Hc. auto.
  - intros i a e Hi Ht. split.
    + by eapply raised_is_no_OSError.
    + intros He. apply Hc. right. by exists i, a, e.
  - intros Hcc Hl. simpl. unfold abort. rewrite Hcc. by destruct (launcher s).
Qed.

(** X2: when the task group is left without failure and without a winner,
    every candidate of the resolver's answer was tried, in its order, every
    attempt returned, and [oserrors] holds exactly one error for each
    candidate. *)
Theorem lost_race_tried_every_candidate addrs delay evs s :
  run (init addrs delay) evs = Some s →
  task_group_exit s = Some None → stream s = None →
  spawned_candidates s = map candidate addrs
  ∧ length (oserrors s) = length addrs
  ∧ ∀ i a, attempts s !! i = Some a → at_task a = Returned.
Proof.
  intros Hrun Hexit Hnone.
  pose proof (coherent_run _ _ _ _ Hrun) as [Hs Hc Ha He].
  pose proof (spawn_order _ _ _ _ Hrun) as Ho.
  assert (cancel_called s = false) as Hcc.
  { destruct (cancel_called s) eqn:Hcc'; [|done]. destruct Hc as [Hc _].
    destruct Hc as [[w Hw]|(i & a & e & Hi & Ht & Hnc)]; [done|congruence|].
    exfalso. eapply (clean_exit_no_error s e); eauto.
    unfold child_failures. apply list_elem_of_omap. exists a.
    split; [by eapply list_elem_of_lookup_2|]. by rewrite Ht. }
  pose proof (clean_exit_no_failures _ Hexit Hnone Hcc) as Hcf.
  assert (joined s = true) as Hj.
  { unfold task_group_exit in Hexit. by destruct (joined s). }
  assert (pending s = []) as Hp.
  { unfold joined in Hj. apply andb_true_iff in Hj as [Hj _].
    destruct (launcher s) eqn:Hl; try done.
    - by destruct (pending s).
    - rewrite Ha in Hcc; done. }
  assert (∀ i a, attempts s !! i = Some a → at_task a = Returned) as Hret.
  { intros i a Hi. pose proof (joined_concluded _ _ _ Hj Hi) as Hcon.
    unfold concluded in Hcon. destruct (at_task a) as [| | |e] eqn:Ht; try done.
    assert (e ∈ child_failures s) as Hin.
    { unfold child_failures. apply list_elem_of_omap. exists a.
      split; [by eapply list_elem_of_lookup_2|]. by rewrite Ht. }
    rewrite Hcf in Hin. by apply elem_of_nil in Hin. }
  rewrite Hp in Ho. simpl in Ho. rewrite app_nil_r in Ho.
  split_and!; [done| |done].
  rewrite He. rewrite <- (length_map candidate addrs), <- Ho.
  unfold spawned_candidates. rewrite length_map.
  assert (∀ l : list attempt,
            (∀ a, a ∈ l → recorded a = 1%nat) → sum_list (recorded <$> l) = length l)
    as Hsum.
  { induction l as [|a l IH]; intros Hl; [done|].
    rewrite fmap_cons. cbn [sum_list_with length]. unfold id at 1.
    rewrite Hl by left. rewrite IH; [done|]. intros b Hb. apply Hl. by right. }
  apply Hsum. intros a [i Hi]%list_elem_of_lookup.
  specialize (Hs _ _ Hi). unfold socket_follows_task in Hs. unfold recorded.
  rewrite (Hret _ _ Hi) in *. destruct (at_socket a); try done.
  destruct Hs as [w Hw]; [done|]. congruence.
Qed.

(** X4: a stream that [connect_tcp] returns is the stream of an attempt
    that returned with its socket still open, and its peer is one of the
    candidates the resolver gave. *)
Theorem returned_stream_is_an_open_candidate addrs delay evs s st :
  run (init addrs delay) evs = Some s →
  connect_tcp_exit s = Some (inr st) →
  ∃ a, attempts s !! stream_socket st = Some a
       ∧ at_task a = Returned ∧ at_socket a = SockOpen
       ∧ (at_af a, stream_peer st) ∈ map candidate addrs.
Proof.
  intros Hrun Hexit.
  assert (stream s = Some st) as Hst.
  { unfold connect_tcp_exit, epilogue in Hexit.
    destruct (task_group_exit s) as [[e|]|]; try done.
    destruct (stream s); by simplify_eq. }
  destruct (winner_is_a_connected_attempt _ _ _ _ _ Hrun Hst)
    as (_ & a & Ha & Hpeer & Ht & Ho).
  exists a. split_and!; try done.
  rewrite <- (spawn_order _ _ _ _ Hrun), Hpeer.
  apply elem_of_app. left. unfold spawned_candidates.
  apply (list_elem_of_fmap_2 (λ a, (at_af a, at_sa a))).
  by eapply list_elem_of_lookup_2.
Qed.

(** Until the first attempt is spawned the clock stands still, unless
    there is nothing to spawn. *)
Lemma first_spawn_at_start addrs delay evs s :
  0 <= delay → run (init addrs delay) evs = Some s →
  (attempts s = [] → pending s = [] ∨ now s <= 0)
  ∧ ∀ a, attempts s !! 0%nat = Some a → at_spawned a <= 0.
Proof.
  intros Hpos.
  apply (run_invariant_reached
           (λ s, (attempts s = [] → pending s = [] ∨ now s <= 0)
                 ∧ ∀ a, attempts s !! 0%nat = Some a → at_spawned a <= 0)).
  { split; [|done]. intros _. right. simpl. lra. }
  clear evs s. intros evs s ev s' Hrun [Hn Hf] Hstep.
  pose proof (inv_run _ _ _ _ Hpos Hrun) as Hinv.
  pose proof (coherent_run _ _ _ _ Hrun) as Hcoh.
  assert (∀ i (x y : attempt),
            attempts s !! i = Some x → at_spawned y = at_spawned x →
            (<[i := y]> (attempts s) = [] → pending s = [] ∨ now s <= 0)
            ∧ ∀ b, <[i := y]> (attempts s) !! 0%nat = Some b → at_spawned b <= 0)
    as Hupd.
  { intros i x y Hi Hsp. split.
    - intros Hnil. apply (f_equal length) in Hnil. rewrite length_insert in Hnil.
      apply lookup_lt_Some in Hi. simpl in Hnil. lia.
    - intros b Hb. destruct (decide (i = 0%nat)) as [->|Hne].
      + rewrite list_lookup_insert_eq in Hb by (by eapply lookup_lt_Some).
        simplify_eq. rewrite Hsp. eauto.
      + rewrite list_lookup_insert_ne in Hb by done. eauto. }
  destruct ev; step_cases Hstep; simpl; try (by eapply Hupd); try done.
  - (* Spawn *)
    split; [by destruct (attempts s)|].
    intros b Hb. destruct (attempts s) as [|b0 l0] eqn:Hatt; simpl in Hb.
    + simplify_eq. simpl. destruct Hn as [Hn|Hn]; [done|congruence|done].
    + simplify_eq. by apply Hf.
  - (* Tick *)
    split; [|done]. intros Hnil. left.
    match goal with H : _ && _ = true |- _ =>
      apply andb_true_iff in H as [_ Hpass] end.
    unfold may_pass in Hpass.
    destruct (launcher s) as [|i d|] eqn:Hl.
    + by destruct (pending s).
    + destruct (inv_waiting _ _ _ Hinv _ _ Hl) as [Hlen _].
      rewrite Hnil in Hlen. done.
    + destruct Hcoh as [_ Hc Ha _]. destruct Hc as [Hc _].
      destruct (Hc (Ha Hl)) as [[w Hw]|(j & b & e & Hb & _)].
      * destruct (winner_is_a_connected_attempt _ _ _ _ _ Hrun Hw)
          as (_ & b & Hb & _).
        rewrite Hnil in Hb. done.
      * rewrite Hnil in Hb. done.
Qed.

(** X5: with a stagger delay that is not negative, the attempt for the
    [i]-th candidate (counted from 0) is spawned no later than [i] delays
    after the race began. *)
Theorem attempt_spawned_within_stagger addrs delay evs s i a :
  0 <= delay → run (init addrs delay) evs = Some s →
  attempts s !! i = Some a →
  at_spawned a <= inject_Z (Z.of_nat i) * delay.
Proof.
  intros Hpos Hrun. revert a. induction i as [|i IH]; intros a Ha.
  - destruct (first_spawn_at_start _ _ _ _ Hpos Hrun) as [_ Hf].
    specialize (Hf _ Ha). change (inject_Z (Z.of_nat 0)) with 0.
    rewrite Qmult_0_l. done.
  - destruct (attempts s !! i) as [b|] eqn:Hb.
    + specialize (IH _ eq_refl).
      destruct (inv_gap _ _ _ (inv_run _ _ _ _ Hpos Hrun) _ _ _ Hb Ha)
        as (_ & Hgap & _).
      rewrite Nat2Z.inj_succ. unfold Z.succ. rewrite inject_Z_plus.
      change (inject_Z 1) with 1. rewrite Qmult_plus_distr_l, Qmult_1_l. lra.
    + apply lookup_ge_None in Hb. apply lookup_lt_Some in Ha. lia.
Qed.

Lemma lost_race_leaves_no_socket_open_witness :
  run (init [c4] (1 # 4)) refused_alone = Some state_refused_alone
  ∧ joined state_refused_alone = true ∧ stream state_refused_alone = None
  ∧ ∀ i a, attempts state_refused_alone !! i = Some a →
           at_socket a = NoSocket ∨ at_socket a = SockClosed.
Proof.
  split_and!; try reflexivity.
  apply (lost_race_leaves_no_socket_open [c4] (1 # 4) refused_alone);
    reflexivity.
Defined.

Lemma lost_race_tried_every_candidate_witness :
  run (init [c4] (1 # 4)) refused_alone = Some state_refused_alone
  ∧ task_group_exit state_refused_alone = Some None
  ∧ stream state_refused_alone = None
  ∧ spawned_candidates state_refused_alone = map candidate [c4]
  ∧ length (oserrors state_refused_alone) = length [c4]
  ∧ ∀ i a, attempts state_refused_alone !! i = Some a → at_task a = Returned.
Proof.
  split_and!; try reflexivity.
  apply (lost_race_tried_every_candidate [c4] (1 # 4) refused_alone);
    reflexivity.
Defined.

Lemma group_cancelled_by_winner_or_failure_witness :
  run (init [c6; c4] (1 # 4)) child_fails = Some state_child_fails
  ∧ stream state_child_fails = None
  ∧ launcher state_child_fails = Aborted
  ∧ pending state_child_fails = [c4]
  ∧ cancel_called state_child_fails = true
  ∧ child_failed state_child_fails.
Proof.
  split_and!; try reflexivity.
  destruct (group_cancelled_by_winner_or_failure [c6; c4] (1 # 4) child_fails
              state_child_fails eq_refl) as (_ & Hab & _).
  destruct (Hab eq_refl) as [[w Hw]|Hf]; [discriminate Hw|exact Hf].
Defined.

Lemma returned_stream_is_an_open_candidate_witness :
  run (init [c6; c4] (1 # 4)) both_succeed = Some state_both_succeed
  ∧ connect_tcp_exit state_both_succeed
    = Some (inr {| stream_socket := 0; stream_peer := ("2001:db8::1", 80%Z) |})
  ∧ ∃ a, attempts state_both_succeed !! 0%nat = Some a
       ∧ at_task a = Returned ∧ at_socket a = SockOpen
       ∧ (at_af a, ("2001:db8::1", 80%Z)) ∈ map candidate [c6; c4].
Proof.
  split; [reflexivity|]. split; [reflexivity|].
  apply (returned_stream_is_an_open_candidate [c6; c4] (1 # 4) both_succeed
           state_both_succeed
           {| stream_socket := 0; stream_peer := ("2001:db8::1", 80%Z) |});
    reflexivity.
Defined.

Lemma attempt_spawned_within_stagger_witness :
  0 <= 1 # 4
  ∧ run (init [c6; c4] (1 # 4)) both_connecting = Some state_both_connecting
  ∧ ∀ a, attempts state_both_connecting !! 1%nat = Some a →
         at_spawned a <= inject_Z (Z.of_nat 1) * (1 # 4).
Proof.
  assert (0 <= 1 # 4) as Hpos by (unfold Qle; simpl; lia).
  split; [exact Hpos|]. split; [reflexivity|]. intros a Ha.
  exact (attempt_spawned_within_stagger [c6; c4] (1 # 4) both_connecting
           state_both_connecting 1%nat a Hpos eq_refl Ha).
Defined.
End RaceFacts.

Module SocketsMoreFacts.
Import ConnectTcp Sockets EffFacts SocketsFacts SocketsSamples.

Local Open Scope list_scope.

#[local] Hint Resolve invoke_keeps_sockets : keeps.

Lemma create_unix_server_failure_closes E path mode w e w' :
  raises E (c_socket AF_UNIX SOCK_STREAM) = None →
  raises E (c_setblocking (length (sockets w)) false) = None →
  create_unix_server E path mode w = (inl e, w') →
  sockets w' = sockets w ++ [SockClosed].
Proof.
  intros Hs Hb. unfold create_unix_server.
  rewrite bind_unfold, socket_socket_returns by done.
  rewrite bind_unfold, invoke_returns by done.
  intros H. apply try_close_on_failure in H; [|solve_keeps]. simpl in H.
  by rewrite close_new_descriptor in H.
Qed.

Lemma try_returns {A} (m : M A) (h : M unit) w x w' :
  try_except_reraise m h w = (inr x, w') → m w = (inr x, w').
Proof.
  unfold try_except_reraise. destruct (m w) as [[e|y] w1]; [|done].
  by destruct (h w1) as [[?|?] ?].
Qed.

Lemma socket_socket_inv E family type w fd w' :
  socket_socket E family type w = (inr fd, w') →
  fd = length (sockets w) ∧ sockets w' = sockets w ++ [SockOpen].
Proof.
  unfold socket_socket. intros H.
  apply bind_returns in H as ([] & w1 & H1 & H).
  apply invoke_keeps_sockets in H1. unfold new_descriptor in H.
  injection H as <- <-. simpl. by rewrite H1.
Qed.

(** The guarded block of a constructor: it leaves the descriptors alone
    and, when it returns, returns the descriptor it was given. *)
Lemma guarded_returns {A} (m : M A) fd w x w' :
  keeps sockets m →
  try_except_reraise m (close fd) w = (inr x, w') →
  sockets w' = sockets w.
Proof. intros Hk H. apply try_returns in H. eauto. Qed.

Lemma guarded_block_fate (m : nat → M nat) w0 w r w' :
  sockets w = sockets w0 ++ [SockOpen] →
  keeps sockets (m (length (sockets w0))) →
  (∀ w1 x w2, m (length (sockets w0)) w1 = (inr x, w2) → x = length (sockets w0)) →
  try_except_reraise (m (length (sockets w0))) (close (length (sockets w0))) w
    = (r, w') →
  returned_open_or_closed w0 r w'.
Proof.
  intros Hw Hk Hret H. destruct r as [e|fd]; simpl.
  - apply try_close_on_failure in H; [|done].
    by rewrite H, Hw, close_new_descriptor.
  - pose proof (try_returns _ _ _ _ _ H) as H'.
    split; [eauto|]. apply Hk in H'. congruence.
Qed.

Ltac returns_descriptor :=
  let H := fresh "H" in
  intros ??? H;
  repeat (apply bind_returns in H as (? & ? & _ & H));
  by injection H as <- _.

(** X6: [connect_unix], once [socket.socket] and [setblocking] have gone
    through: it returns the new descriptor, left open, or it raises and has
    closed the descriptor. *)
Theorem connect_unix_socket_fate E path w r w' :
  raises E (c_socket AF_UNIX SOCK_STREAM) = None →
  raises E (c_setblocking (length (sockets w)) false) = None →
  connect_unix E path w = (r, w') →
  returned_open_or_closed w r w'.
Proof.
  intros Hs Hb. unfold connect_unix.
  rewrite bind_unfold, socket_socket_returns by done.
  rewrite bind_unfold, invoke_returns by done.
  apply guarded_block_fate with
    (m := λ raw_socket, invoke E (c_asynclib_connect_unix raw_socket path);;
                        mret raw_socket);
    [done|solve_keeps|returns_descriptor].
Qed.

(** X7: [create_unix_server], once [socket.socket] and [setblocking] have
    gone through: whatever [bind], [chmod], [listen] or the backend do, it
    returns the new descriptor, left open, or it raises and has closed the
    descriptor. *)
Theorem create_unix_server_socket_fate E path mode w r w' :
  raises E (c_socket AF_UNIX SOCK_STREAM) = None →
  raises E (c_setblocking (length (sockets w)) false) = None →
  create_unix_server E path mode w = (r, w') →
  returned_open_or_closed w r w'.
Proof.
  intros Hs Hb. unfold create_unix_server.
  rewrite bind_unfold, socket_socket_returns by done.
  rewrite bind_unfold, invoke_returns by done.
  apply guarded_block_fate with
    (m := λ raw_socket,
       invoke E (c_bind_path raw_socket path);;
       match mode with
       | Some m => invoke E (c_chmod path m)
       | None => mret tt
       end;;
       invoke E (c_listen raw_socket);;
       invoke E (c_asynclib_create_unix_listener raw_socket);;
       mret raw_socket);
    [done|solve_keeps|returns_descriptor].
Qed.

(** X8: [create_tcp_server], once the address lookup, [socket.socket],
    [setblocking] and the two options set before the [try] have gone
    through: it returns the new descriptor, left open, or it raises and has
    closed the descriptor. *)
Theorem create_tcp_server_socket_fate E port interface w r w' :
  let '(_, family, v6only) := bind_address E interface in
  let fd := length (sockets w) in
  raises E (c_get_bind_address interface) = None →
  raises E (c_socket family SOCK_STREAM) = None →
  raises E (c_setblocking fd false) = None →
  raises E (c_setsockopt fd IPPROTO_TCP TCP_NODELAY 1) = None →
  (family = AF_INET6 →
   raises E (c_setsockopt fd IPPROTO_IPV6 IPV6_V6ONLY (Z.b2z v6only)) = None) →
  create_tcp_server E port interface w = (r, w') →
  returned_open_or_closed w r w'.
Proof.
  destruct (bind_address E interface) as [[itf family] v6only] eqn:Hba.
  intros fd Hg Hs Hb Hn H6. unfold create_tcp_server, get_bind_address.
  rewrite !bind_unfold, invoke_returns by done. simpl. rewrite Hba.
  rewrite bind_unfold, socket_socket_returns by done.
  rewrite bind_unfold, invoke_returns by done.
  rewrite bind_unfold, invoke_returns by done.
  rewrite bind_unfold.
  match goal with |- context [when ?b (invoke E ?c) ?w0] =>
    destruct (when_invoke_returns E b c w0) as [cs ->] end.
  { intros Hf. apply H6. by apply Z.eqb_eq. }
  apply guarded_block_fate with
    (m := λ raw_socket,
       (if win32 E
        then invoke E (c_setsockopt raw_socket SOL_SOCKET SO_EXCLUSIVEADDRUSE 1)
        else invoke E (c_setsockopt raw_socket SOL_SOCKET SO_REUSEADDR 1));;
       invoke E (c_bind raw_socket (str_or_empty itf) port);;
       invoke E (c_listen raw_socket);;
       invoke E (c_asynclib_create_tcp_listener raw_socket);;
       mret raw_socket);
    [done|solve_keeps|returns_descriptor].
Qed.

(** X9: [create_udp_socket], where [setblocking] does not raise: it
    returns the new descriptor, left open; or it raises, and then it
    either made no socket or has closed the one it made. *)
Theorem create_udp_socket_socket_fate E interface port target_host target_port
    w r w' :
  (∀ fd, raises E (c_setblocking fd false) = None) →
  create_udp_socket E interface port target_host target_port w = (r, w') →
  match r with
  | inr fd => fd = length (sockets w) ∧ sockets w' = sockets w ++ [SockOpen]
  | inl _ => sockets w' = sockets w ∨ sockets w' = sockets w ++ [SockClosed]
  end.
Proof.
  intros Hb. unfold create_udp_socket.
  rewrite bind_unfold.
  match goal with |- context [match ?m w with _ => _ end] =>
    assert (keeps sockets m) as Hk1 by (unfold get_bind_address; solve_keeps);
    destruct (m w) as [[e1|[itf family]] w1] eqn:Hm1 end.
  { intros H. injection H as <- <-. left. eauto. }
  apply Hk1 in Hm1. rewrite bind_unfold.
  match goal with |- context [match ?m w1 with _ => _ end] =>
    assert (keeps sockets m) as Hk2 by (unfold getaddrinfo; solve_keeps);
    destruct (m w1) as [[e2|[[family' th] tp]] w2] eqn:Hm2 end.
  { intros H. injection H as <- <-. left. rewrite <- Hm1. eauto. }
  apply Hk2 in Hm2. rewrite bind_unfold. unfold socket_socket at 1.
  rewrite bind_unfold. unfold invoke at 1.
  destruct (raises E (c_socket family' SOCK_DGRAM)).
  { intros H. injection H as <- <-. left. simpl. congruence. }
  unfold new_descriptor. rewrite bind_unfold, invoke_returns by done.
  assert (sockets w2 = sockets w) as Hw2 by congruence.
  cbn [sockets]. rewrite Hw2. intros H.
  eapply guarded_block_fate with
    (m := λ raw_socket,
       when (bool_decide (itf ≠ None) || bool_decide (port ≠ None))
         (invoke E (c_bind raw_socket (str_or_empty itf) (int_or_zero port)));;
       match th, tp with
       | Some h, Some p => invoke E (c_connect raw_socket h p)
       | _, _ => mret tt
       end;;
       invoke E (c_asynclib_create_udp_socket raw_socket);;
       mret raw_socket) in H;
    [|done|solve_keeps|returns_descriptor].
  unfold returned_open_or_closed in H. destruct r; auto.
Qed.

(** X10: [create_udp_socket] with a target host that resolves to no
    address (the lookups themselves not raising) raises [ValueError] with
    the [repr] of the host in its message, and makes no socket. *)
Theorem create_udp_socket_unresolved E interface port host target_port w :
  host ≠ "" →
  (∀ p f, addrinfo_of E host p f = []) →
  (∀ itf, raises E (c_get_bind_address itf) = None) →
  (∀ p f, raises E (c_getaddrinfo host p f) = None) →
  ∃ w', create_udp_socket E interface port (Some host) target_port w
        = (inl (ValueError (repr E host
                            ++ " cannot be resolved to an IP address")%string),
           w')
    ∧ sockets w' = sockets w
    ∧ ∀ family type, c_socket family type ∉ drop (length (calls w)) (calls w').
Proof.
  intros Hne Hnone Hg Ha. unfold create_udp_socket.
  assert (truthy_str (Some host) = true) as Ht.
  { simpl. apply negb_true_iff, String.eqb_neq. done. }
  rewrite Ht. simpl default.
  assert (∀ (w0 : world) family,
            getaddrinfo E host target_port family w0
            = (inr [], {| sockets := sockets w0;
                          calls := calls w0 ++ [c_getaddrinfo host target_port family] |}))
    as Hga.
  { intros w0 family. unfold getaddrinfo.
    rewrite bind_unfold, invoke_returns by done. by rewrite Hnone. }
  destruct (truthy_str interface) eqn:Hi.
  - unfold get_bind_address.
    rewrite !bind_unfold, invoke_returns by done.
    destruct (bind_address E interface) as [[itf family] v6only].
    cbn [mret M_ret Eff.ret]. rewrite bind_unfold. cbn [mret M_ret Eff.ret].
    rewrite !bind_unfold, Hga. cbn [raise Eff.raise].
    eexists. split; [reflexivity|]. simpl. split; [done|].
    intros family0 type. rewrite <- !app_assoc, drop_app_length.
    intros H. repeat (apply elem_of_cons in H as [H|H]; [discriminate|]).
    by apply elem_of_nil in H.
  - rewrite bind_unfold. cbn [mret M_ret Eff.ret].
    rewrite !bind_unfold, Hga. cbn [raise Eff.raise].
    eexists. split; [reflexivity|]. simpl. split; [done|].
    intros family0 type. rewrite drop_app_length.
    intros H. repeat (apply elem_of_cons in H as [H|H]; [discriminate|]).
    by apply elem_of_nil in H.
Qed.

Lemma connect_unix_socket_fate_witness :
  raises backend_refuses (c_socket AF_UNIX SOCK_STREAM) = None
  ∧ raises backend_refuses (c_setblocking 0 false) = None
  ∧ ∃ w', connect_unix backend_refuses "/run/app.sock" empty_world
          = (inl (OSError "Connection refused"), w')
      ∧ sockets w' = [SockClosed].
Proof.
  split; [reflexivity|]. split; [reflexivity|].
  eexists. split; [reflexivity|].
  exact (connect_unix_socket_fate backend_refuses "/run/app.sock" empty_world
           _ _ eq_refl eq_refl eq_refl).
Defined.

Lemma create_unix_server_socket_fate_witness :
  raises backend_refuses (c_socket AF_UNIX SOCK_STREAM) = None
  ∧ raises backend_refuses (c_setblocking 0 false) = None
  ∧ ∃ w', create_unix_server backend_refuses "/run/app.sock" (Some 432%Z) empty_world
          = (inl (OSError "Connection refused"), w')
      ∧ sockets w' = [SockClosed].
Proof.
  split; [reflexivity|]. split; [reflexivity|].
  eexists. split; [reflexivity|].
  exact (create_unix_server_socket_fate backend_refuses "/run/app.sock"
           (Some 432%Z) empty_world _ _ eq_refl eq_refl eq_refl).
Defined.

Lemma create_tcp_server_socket_fate_witness :
  ∃ w', create_tcp_server backend_refuses 8080 (Some "127.0.0.1") empty_world
        = (inl (OSError "Connection refused"), w')
    ∧ sockets w' = [SockClosed].
Proof.
  eexists. split; [reflexivity|].
  refine (create_tcp_server_socket_fate backend_refuses 8080 (Some "127.0.0.1")
            empty_world _ _ eq_refl eq_refl eq_refl eq_refl _ eq_refl).
  discriminate.
Defined.

Lemma create_udp_socket_socket_fate_witness :
  (∀ fd, raises backend_refuses (c_setblocking fd false) = None)
  ∧ ∃ w', create_udp_socket backend_refuses None (Some 5353%Z) None None empty_world
          = (inl (OSError "Connection refused"), w')
      ∧ (sockets w' = [] ∨ sockets w' = [SockClosed]).
Proof.
  split; [reflexivity|]. eexists. split; [reflexivity|].
  exact (create_udp_socket_socket_fate backend_refuses None (Some 5353%Z) None None
           empty_world _ _ (λ _, eq_refl) eq_refl).
Defined.

Lemma create_udp_socket_unresolved_witness :
  ∃ w', create_udp_socket backend_refuses None None (Some "o'neil.invalid")
          (Some 53%Z) empty_world
        = (inl (ValueError
                  (String dquote "o'neil.invalid"
                   ++ String dquote " cannot be resolved to an IP address")%string),
           w')
    ∧ sockets w' = [].
Proof.
  destruct (create_udp_socket_unresolved backend_refuses None None
              "o'neil.invalid" (Some 53%Z) empty_world)
    as (w' & H & Hs & _); [discriminate|reflexivity|reflexivity|reflexivity|].
  exists w'. split; [exact H|exact Hs].
Defined.

(** [repr] at plain hosts and at hosts with quotes, a backslash or a
    control character. *)
Lemma repr_str_samples :
  repr_str "nowhere.invalid" = "'nowhere.invalid'"%string
  ∧ repr_str "o'neil.invalid"
    = (String dquote "o'neil.invalid" ++ String dquote "")%string
  ∧ repr_str (String dquote "a'b") = String squote (String dquote "a\'b'")
  ∧ repr_str "a\b" = "'a\\b'"%string
  ∧ repr_str (String (ascii_of_nat 10) (String (ascii_of_nat 1) ""))
    = "'\n\x01'"%string.
Proof. split_and!; reflexivity. Qed.
End SocketsMoreFacts.

Module WorkerFacts.
Import EventLoop Worker.

Section Facts.
Variable importable :
  string → list (string * asynclib_module) * (exn + asynclib_module).

Lemma import_module_grows name w r w' :
  import_module importable name w = (r, w') →
  sniff w' = sniff w ∧ current_async_module w' = current_async_module w
  ∧ sys_modules w ⊆ sys_modules w'
  ∧ match r with
    | inr m => sys_modules w' !! name = Some m
    | inl e =>
        sys_modules w !! name = None
        ∧ sys_modules w' = sys_modules w ∪ list_to_map (importable name).1
        ∧ ∃ exc, (importable name).2 = inl exc ∧ e = Python exc
    end.
Proof.
  unfold import_module. intros H.
  destruct (sys_modules w !! name) as [m|] eqn:Hl.
  - by simplify_eq.
  - destruct (importable name) as [loaded [exc|m]]; simplify_eq; simpl.
    + split_and!; try done; [apply map_union_subseteq_l|eauto].
    + split_and!; try done; [|by rewrite lookup_insert_eq].
      apply insert_subseteq_r; [done|apply map_union_subseteq_l].
Qed.

(** X11: a [_get_asynclib] that returns a module changes nothing but
    [sys.modules], which only grows, and a second call in the world it
    left returns the same module and changes nothing. *)
Theorem get_asynclib_caches name w m w' :
  _get_asynclib importable name w = (inr m, w') →
  sniff w' = sniff w ∧ current_async_module w' = current_async_module w
  ∧ sys_modules w ⊆ sys_modules w'
  ∧ _get_asynclib importable name w' = (inr m, w').
Proof.
  unfold _get_asynclib. intros H.
  set (found := match name with
                | None => current_async_library (sniff w)
                | Some n => Some n
                end) in *.
  destruct found as [n|] eqn:Hn; [|done].
  assert (sniff w' = sniff w ∧ current_async_module w' = current_async_module w
          ∧ sys_modules w ⊆ sys_modules w'
          ∧ sys_modules w' !! ("anyio._backends._" ++ n) = Some m) as (Hs & Hc & Hsub & Hm).
  { destruct (sys_modules w !! ("anyio._backends._" ++ n)) as [m0|] eqn:Hl.
    - by simplify_eq.
    - by apply import_module_grows in H. }
  split_and!; try done.
  rewrite Hs. fold found. by rewrite Hn, Hm.
Qed.

(** X12: a [_get_asynclib] that raises leaves what [sniffio] knows and
    the attribute of the thread as they were, and [sys.modules] can only
    have grown.  It raises [AsyncLibraryNotFoundError], having changed
    nothing, when no name was given and no library is running; otherwise
    it raises the exception with which the import of the backend module,
    which was not loaded, ended, and [sys.modules] holds what that import
    loaded on the way. *)
Theorem get_asynclib_failure name w e w' :
  _get_asynclib importable name w = (inl e, w') →
  sniff w' = sniff w ∧ current_async_module w' = current_async_module w
  ∧ sys_modules w ⊆ sys_modules w'
  ∧ ((name = None ∧ current_async_library (sniff w) = None
      ∧ e = AsyncLibraryNotFoundError ∧ w' = w)
     ∨ ∃ n exc,
         (name = Some n ∨ (name = None ∧ current_async_library (sniff w) = Some n))
         ∧ sys_modules w !! ("anyio._backends._" ++ n) = None
         ∧ (importable ("anyio._backends._" ++ n)).2 = inl exc
         ∧ e = Python exc
         ∧ sys_modules w'
           = sys_modules w ∪ list_to_map (importable ("anyio._backends._" ++ n)).1).
Proof.
  unfold _get_asynclib. intros H.
  assert (∀ n, match sys_modules w !! ("anyio._backends._" ++ n) with
               | Some m => (inr m, w)
               | None => import_module importable ("anyio._backends._" ++ n) w
               end = (inl e, w') →
               sniff w' = sniff w ∧ current_async_module w' = current_async_module w
               ∧ sys_modules w ⊆ sys_modules w'
               ∧ ∃ exc, sys_modules w !! ("anyio._backends._" ++ n) = None
                   ∧ (importable ("anyio._backends._" ++ n)).2 = inl exc
                   ∧ e = Python exc
                   ∧ sys_modules w'
                     = sys_modules w
                       ∪ list_to_map (importable ("anyio._backends._" ++ n)).1)
    as Himp.
  { intros n Hn. destruct (sys_modules w !! _) eqn:Hl; [done|].
    apply import_module_grows in Hn as (? & ? & ? & _ & ? & exc & ? & ?).
    split_and!; try done. by exists exc. }
  destruct name as [n|].
  - destruct (Himp _ H) as (? & ? & ? & exc & ? & ? & ? & ?).
    split_and!; try done. right. exists n, exc. split_and!; auto.
  - destruct (current_async_library (sniff w)) as [n|] eqn:Hc.
    + destruct (Himp _ H) as (? & ? & ? & exc & ? & ? & ? & ?).
      split_and!; try done. right. exists n, exc. split_and!; auto.
    + simplify_eq. split_and!; try done. by left.
Qed.

Section Calls.
Context {func arg retval : Type}.
Variable call : asynclib_module → func → list arg → exn + retval.

(** X14: [claim_worker_thread(backend)], the backend module being loaded,
    around a block that leaves [_local.current_async_module] alone: the
    block's result or exception is passed on, the context variable has its
    old value afterwards, whatever the block did to it, the attribute is
    deleted, and [run_async_from_thread] is refused again. *)
Theorem claim_worker_thread_restores {A} backend (body : world → result A) m w :
  sys_modules w !! ("anyio._backends._" ++ backend) = Some m →
  keeps_module body →
  let res := claim_worker_thread backend body w in
  res.1 = (body (claimed backend m w)).1
  ∧ current_async_module res.2 = None
  ∧ current_async_library_cvar (sniff res.2) = current_async_library_cvar (sniff w)
  ∧ ∀ f args, (run_async_from_thread call f args res.2).1
      = inl (Python (RuntimeError
                       "This function can only be run from an AnyIO worker thread")).
Proof.
  intros Hm Hk. unfold claim_worker_thread. rewrite Hm. fold (claimed backend m w).
  destruct (body (claimed backend m w)) as [r w2] eqn:Hb.
  apply Hk in Hb as Hcm. simpl in Hcm. simpl. rewrite Hcm. simpl.
  split_and!; try done.
Qed.

(** X15: inside the block of [claim_worker_thread(backend)],
    [run_async_from_thread] calls into the module of that backend, and,
    when [sniffio] has no name set for the thread itself, so does every
    function that goes through [_get_asynclib()]. *)
Theorem claimed_backend_is_used {A} backend m w f args
    (g : asynclib_module → world → result A) :
  sys_modules w !! ("anyio._backends._" ++ backend) = Some m →
  (claim_worker_thread backend (run_async_from_thread call f args) w).1
    = match call m f args with inl e => inl (Python e) | inr v => inr v end
  ∧ (thread_local_name (sniff w) = None →
     (∀ m', keeps_module (g m')) →
     (claim_worker_thread backend (via_asynclib importable g) w).1
       = (g m (claimed backend m w)).1).
Proof.
  intros Hm. split.
  - unfold claim_worker_thread, run_async_from_thread. rewrite Hm. simpl. done.
  - intros Htl Hg. unfold claim_worker_thread. rewrite Hm.
    fold (claimed backend m w).
    assert (via_asynclib importable g (claimed backend m w)
            = g m (claimed backend m w)) as ->.
    { unfold via_asynclib, _get_asynclib, current_async_library. simpl.
      by rewrite Htl, Hm. }
    destruct (g m (claimed backend m w)) as [r w2] eqn:Hb.
    apply Hg in Hb. simpl in *. by rewrite Hb.
Qed.

(** X16: [claim_worker_thread] cannot be nested: the exit of the inner
    block deletes the attribute that the exit of the outer block deletes
    again, so the outer block ends in [AttributeError], whatever the inner
    block gave; the context variable is restored all the same. *)
Theorem nested_claim_fails {A} b1 b2 m1 m2 (body : world → result A) w :
  sys_modules w !! ("anyio._backends._" ++ b1) = Some m1 →
  sys_modules w !! ("anyio._backends._" ++ b2) = Some m2 →
  keeps_module body →
  let res := claim_worker_thread b1 (claim_worker_thread b2 body) w in
  res.1 = inl (AttributeError "current_async_module")
  ∧ current_async_library_cvar (sniff res.2) = current_async_library_cvar (sniff w).
Proof.
  intros H1 H2 Hk. unfold claim_worker_thread at 1. rewrite H1.
  fold (claimed b1 m1 w).
  unfold claim_worker_thread. simpl. rewrite H2.
  fold (claimed b2 m2 (claimed b1 m1 w)).
  destruct (body _) as [r w2] eqn:Hb. apply Hk in Hb. simpl in *.
  rewrite Hb. simpl. done.
Qed.
End Calls.

(** X13: outside an event loop and outside a worker thread, a function of
    the form [return _get_asynclib().f(...)] raises
    [AsyncLibraryNotFoundError]; no backend function is called and nothing
    is changed. *)
Theorem no_library_no_call {A} (g : asynclib_module → world → result A) w :
  current_async_library (sniff w) = None →
  via_asynclib importable g w = (inl AsyncLibraryNotFoundError, w).
Proof.
  intros H. unfold via_asynclib, _get_asynclib. by rewrite H.
Qed.

(** X17: [open_test_runner], the backend module found: when the context
    variable is unset it is set to the backend for the block and unset
    again afterwards, however the block ends and whatever the block did to
    it; when the variable is set already, the block runs with it as it is
    and nothing is restored. *)
Theorem open_test_runner_variable {A kwargs} backend (opts : option (list kwargs))
    (body : asynclib_module → list kwargs → world → result A) w m w0 :
  _get_asynclib importable (Some backend) w = (inr m, w0) →
  let res := open_test_runner importable backend opts body w in
  match current_async_library_cvar (sniff w) with
  | None =>
      res.1 = (body m (default [] opts)
                 (with_sniff (set_cvar (Some backend) (sniff w0)) w0)).1
      ∧ current_async_library_cvar (sniff res.2) = None
  | Some _ => res = body m (default [] opts) w0
  end.
Proof.
  intros Hg. unfold open_test_runner. rewrite Hg.
  apply get_asynclib_caches in Hg as (Hs & _ & _ & _).
  rewrite Hs.
  destruct (current_async_library_cvar (sniff w)) as [x|] eqn:Hc.
  - assert (with_sniff (sniff w) w0 = w0) as ->.
    { rewrite <- Hs. by destruct w0. }
    by destruct (body m (default [] opts) w0).
  - rewrite <- Hs. by destruct (body m _ _).
Qed.
End Facts.

Lemma get_asynclib_caches_witness :
  ∃ w', _get_asynclib curio_importable (Some "curio") idle_thread
        = (inr (Module_ "anyio._backends._curio"), w')
    ∧ sys_modules w' !! "anyio._backends._curio" = Some (Module_ "anyio._backends._curio")
    ∧ _get_asynclib curio_importable (Some "curio") w'
      = (inr (Module_ "anyio._backends._curio"), w').
Proof.
  eexists. split; [vm_compute; reflexivity|]. split; [reflexivity|].
  refine (proj2 (proj2 (proj2 (get_asynclib_caches curio_importable (Some "curio")
                                 idle_thread _ _ _)))).
  vm_compute. reflexivity.
Defined.

Lemma get_asynclib_failure_witness :
  _get_asynclib curio_missing (Some "curio") idle_thread
    = (inl (Python (ImportError "No module named 'curio'")),
       with_modules (sys_modules idle_thread
                     ∪ list_to_map [("anyio._backends", Module_ "anyio._backends")])
                    idle_thread)
  ∧ sys_modules idle_thread
    ⊆ sys_modules idle_thread
      ∪ list_to_map [("anyio._backends", Module_ "anyio._backends")].
Proof.
  assert (_get_asynclib curio_missing (Some "curio") idle_thread
          = (inl (Python (ImportError "No module named 'curio'")),
             with_modules (sys_modules idle_thread
                           ∪ list_to_map [("anyio._backends", Module_ "anyio._backends")])
                          idle_thread)) as H by reflexivity.
  split; [exact H|].
  destruct (get_asynclib_failure curio_missing _ _ _ _ H) as (_ & _ & Hsub & _).
  exact Hsub.
Defined.

Lemma claim_worker_thread_restores_witness :
  sys_modules idle_thread !! "anyio._backends._trio" = Some trio
  ∧ keeps_module pass
  ∧ (claim_worker_thread "trio" pass idle_thread).1 = inr tt
  ∧ current_async_module (claim_worker_thread "trio" pass idle_thread).2 = None
  ∧ current_async_library_cvar (sniff (claim_worker_thread "trio" pass idle_thread).2)
    = None.
Proof.
  assert (keeps_module pass) as Hk by (intros w r w' [= _ <-]; reflexivity).
  split; [reflexivity|]. split; [exact Hk|].
  destruct (claim_worker_thread_restores (func := unit) (arg := unit)
              (retval := unit) (λ _ _ _, inr tt) "trio" pass trio idle_thread
              eq_refl Hk) as (H1 & H2 & H3 & _).
  split; [exact H1|]. split; [exact H2|exact H3].
Defined.

Lemma claimed_backend_is_used_witness :
  sys_modules idle_thread !! "anyio._backends._trio" = Some trio
  ∧ (claim_worker_thread "trio"
       (run_async_from_thread (λ m (_ : unit) (_ : list unit), inr (module_name m)) tt [])
       idle_thread).1
    = inr "anyio._backends._trio"
  ∧ (claim_worker_thread "trio"
       (via_asynclib curio_importable (λ m w, (inr (module_name m), w)))
       idle_thread).1
    = inr "anyio._backends._trio".
Proof.
  split; [reflexivity|].
  destruct (claimed_backend_is_used curio_importable
              (λ m (_ : unit) (_ : list unit), inr (module_name m))
              "trio" trio idle_thread tt []
              (λ m w, (inr (module_name m), w)) eq_refl) as [H1 H2].
  split; [exact H1|]. apply H2; [reflexivity|].
  intros m' w r w' [= _ <-]. reflexivity.
Defined.

Lemma nested_claim_fails_witness :
  sys_modules idle_thread !! "anyio._backends._trio" = Some trio
  ∧ sys_modules idle_thread !! "anyio._backends._asyncio" = Some asyncio
  ∧ keeps_module pass
  ∧ (claim_worker_thread "trio" (claim_worker_thread "asyncio" pass) idle_thread).1
    = inl (AttributeError "current_async_module").
Proof.
  assert (keeps_module pass) as Hk by (intros w r w' [= _ <-]; reflexivity).
  split; [reflexivity|]. split; [reflexivity|]. split; [exact Hk|].
  exact (proj1 (nested_claim_fails "trio" "asyncio" trio asyncio pass idle_thread
                  eq_refl eq_refl Hk)).
Defined.

Lemma no_library_no_call_witness :
  current_async_library (sniff idle_thread) = None
  ∧ via_asynclib curio_importable (λ m w, (inr (module_name m), w)) idle_thread
    = (inl AsyncLibraryNotFoundError, idle_thread).
Proof.
  split; [reflexivity|].
  exact (no_library_no_call curio_importable _ idle_thread eq_refl).
Defined.

Lemma open_test_runner_variable_witness :
  _get_asynclib curio_importable (Some "trio") idle_thread = (inr trio, idle_thread)
  ∧ current_async_library_cvar
      (sniff (open_test_runner curio_importable "trio" (None : option (list unit))
                (λ m _ w, (inr (current_async_library (sniff w)),
                           with_sniff (set_cvar (Some "other") (sniff w)) w))
                idle_thread).2)
    = None
  ∧ (open_test_runner curio_importable "trio" (None : option (list unit))
       (λ m _ w, (inr (current_async_library (sniff w)),
                  with_sniff (set_cvar (Some "other") (sniff w)) w))
       idle_thread).1
    = inr (Some "trio").
Proof.
  split; [reflexivity|].
  pose proof (open_test_runner_variable curio_importable "trio"
                (None : option (list unit))
                (λ m _ w, (inr (current_async_library (sniff w)),
                           with_sniff (set_cvar (Some "other") (sniff w)) w))
                idle_thread trio idle_thread eq_refl) as H.
  simpl in H. destruct H as [H1 H2]. split; [exact H2|exact H1].
Defined.
End WorkerFacts.

Module TasksFacts.
Import Tasks.

Section Facts.
Context {FrameType awaitable : Type}.
Abbreviation task := (@TaskInfo FrameType awaitable).

(** X18: equality of [TaskInfo] objects is decided by [id] alone: it is
    reflexive, symmetric and transitive, equal objects have equal hashes,
    and the comparison with an object of another type gives
    [NotImplemented]. *)
Theorem task_equality_by_id (hash : Z → Z) (a b c : task) :
  (__eq__ a (a_task b) = Bool true ↔ id a = id b)
  ∧ __eq__ a (a_task a) = Bool true
  ∧ __eq__ a (a_task b) = __eq__ b (a_task a)
  ∧ (__eq__ a (a_task b) = Bool true → __eq__ b (a_task c) = Bool true →
     __eq__ a (a_task c) = Bool true)
  ∧ (__eq__ a (a_task b) = Bool true → __hash__ hash a = __hash__ hash b)
  ∧ ∀ r, __eq__ a (another r) = NotImplemented.
Proof.
  unfold __eq__, __hash__. split_and!.
  - split; [intros [= H]; by apply Z.eqb_eq|intros ->; by rewrite Z.eqb_refl].
  - by rewrite Z.eqb_refl.
  - by rewrite Z.eqb_sym.
  - intros [= H1%Z.eqb_eq] [= H2%Z.eqb_eq]. f_equal. apply Z.eqb_eq. congruence.
  - intros [= H%Z.eqb_eq]. by rewrite H.
  - done.
Qed.

End Facts.
End TasksFacts.

Module SubprocessMoreFacts.
Import Subprocess EffFacts SubprocessFacts SubprocessCalls.

Local Open Scope list_scope.

Lemma bind_raises {W A B} (m : Eff.M W A) (k : A → Eff.M W B) w e w' :
  (m ≫= k) w = (inl e, w') →
  m w = (inl e, w') ∨ ∃ x w1, m w = (inr x, w1) ∧ k x w1 = (inl e, w').
Proof.
  rewrite bind_unfold. destruct (m w) as [[e1|x] w1]; [|eauto].
  intros [= <- <-]. by left.
Qed.

Lemma invoke_raises E c w e w' :
  invoke E c w = (inl e, w') → raises E c = Some e.
Proof.
  unfold invoke. destruct (raises E c); [|done]. by intros [= <- _].
Qed.

Lemma drain_raises E chunks index w e w' :
  drain_stream E chunks index w = (inl e, w') → raises E (c_drain index) = Some e.
Proof.
  unfold drain_stream. intros H.
  apply bind_raises in H as [H|(? & ? & _ & H)]; [by eapply invoke_raises|].
  rewrite bind_unfold in H. done.
Qed.

Lemma block_raises E p input w e w' :
  streaming_block E p input w = (inl e, w') →
  ∃ c, c ∈ block_calls input ∧ raises E c = Some e.
Proof.
  unfold streaming_block, block_calls. intros H.
  apply bind_raises in H as [H|(? & ? & _ & H)].
  { destruct (p_stdout p); [|done]. apply drain_raises in H.
    eexists. split; [|done]. set_solver. }
  apply bind_raises in H as [H|(? & ? & _ & H)].
  { destruct (p_stderr p); [|done]. apply drain_raises in H.
    eexists. split; [|done]. set_solver. }
  apply bind_raises in H as [H|(? & ? & _ & H)].
  { unfold Eff.when in H. destruct (_ && _); [|done].
    apply bind_raises in H as [H|(? & ? & _ & H)];
      apply invoke_raises in H; (eexists; split; [|done]); set_solver. }
  apply invoke_raises in H. eexists. split; [|done]. set_solver.
Qed.

Lemma run_process_unfold E cmd input stdout stderr check w :
  let shell := match cmd with Shell _ => true | Argv _ => false end in
  let stdin := if truthy_bytes input then PIPE else DEVNULL in
  let p := process_of E cmd shell stdin stdout stderr in
  run_process E cmd input stdout stderr check w
  = match raises E (c_open_process cmd shell stdin stdout stderr) with
    | Some e =>
        (inl e, {| killed := killed w; stream_contents := stream_contents w;
                   calls := calls w ++ [c_open_process cmd shell stdin stdout stderr] |})
    | None =>
        match streaming_block E p input (after_open E cmd input stdout stderr w) with
        | (inl e, w1) =>
            (inl e, {| killed := true; stream_contents := stream_contents w1;
                       calls := calls w1 ++ [c_kill] |})
        | (inr _, w1) =>
            (if check && negb (p_returncode p =? 0)%Z
             then inl (CalledProcessError (p_returncode p) cmd
                         (mjoin (stream_contents w1 !! 0%nat))
                         (mjoin (stream_contents w1 !! 1%nat)))
             else inr {| cp_args := cmd; cp_returncode := p_returncode p;
                         cp_stdout := mjoin (stream_contents w1 !! 0%nat);
                         cp_stderr := mjoin (stream_contents w1 !! 1%nat) |},
             w1)
        end
    end.
Proof.
  intros shell stdin p.
  unfold run_process, open_process. fold shell stdin.
  rewrite !bind_unfold. unfold invoke at 1.
  destruct (raises E _) as [e|]; [done|]. simpl. fold p.
  rewrite bind_unfold. unfold set_stream_contents at 1. simpl.
  rewrite bind_unfold. unfold after_open. fold shell stdin.
  unfold try_except_reraise.
  destruct (streaming_block _ _ _ _) as [[e|[]] w1]; [done|].
  rewrite bind_unfold. simpl. by destruct (check && _).
Qed.


End SubprocessMoreFacts.
